(** * POKEMON: the battle and world engine of [server.go] and its drafts

    A shallow embedding of the Go sources:
    - [src/server.go]: the final server (damage model, type chart, the
      two-socket battle of [handleConnection], the [Player] world of
      [handlePlayerMovement] / [handleEncounter], and [spawnPokemon]);
    - [src/unnamed/part_000]: two earlier drafts of the server; the second one
      has the [Pokeworld] session loop [handlePlayer] (movement, and the
      capture code behind it) and the despawn timers.

    Conventions of the embedding.
    - Go [int] is a 64-bit two's-complement integer: a [Z] with the
      wrap-around written out ([wrap]).
    - Go [float64] values are modelled by exact rationals [Q].  Every float
      the program computes with is an integer, or an integer times a
      multiplier of the type chart (0, 0.5, 2) or the literal 1.0; such
      values and their differences are computed exactly by float64 as long
      as the integers stay within [-2^51, 2^51] ([stat_ok]).  Theorems
      about float code carry that range as a hypothesis.
    - A [*Pokemon] is either nil or the address of an element of the
      [pokedex] slice ([&pokedex[i]]): pointers are [option nat] indices
      into the shared store, so aliasing is what it is in the program.
    - A run-time panic (nil dereference, index out of range, division by
      zero, [rand.Intn] of a non-positive bound) is [None], and [Panics]
      for the functions that can also block.
    - Mutexes.  A function is modelled as called with the mutexes it
      locks free; a [Lock] that the function releases again then leaves
      no trace in the state.  [sync.Mutex] is not reentrant: a goroutine
      that locks a mutex it still holds never proceeds.  A call that ends
      this way has the result [Blocks], with the state at that point; the
      mutexes it holds stay locked.
    - [math/rand] is an oracle handed to the function that draws from it. *)

From Stdlib Require Import ZArith QArith Qround Lia.
From stdpp Require Import base option list strings gmap fin_maps.

Local Open Scope Z_scope.

(** ** Go primitives *)

Definition min_int : Z := - 2 ^ 63.
Definition max_int : Z := 2 ^ 63 - 1.

(** Two's-complement wrap-around of a mathematical integer to [int]. *)
Definition wrap (z : Z) : Z := (z + 2 ^ 63) mod 2 ^ 64 - 2 ^ 63.

Definition int_add (a b : Z) : Z := wrap (a + b).
Definition int_sub (a b : Z) : Z := wrap (a - b).

(** [a % b] of Go: the remainder has the sign of the dividend; a zero
    divisor panics. *)
Definition int_rem (a b : Z) : option Z :=
  if decide (b = 0) then None else Some (Z.rem a b).

(** [float64(z)]. *)
Definition float64_of_int (z : Z) : Q := inject_Z z.

(** [int(f)]: conversion truncates toward zero. *)
Definition int_of_float64 (f : Q) : Z := Z.quot (Qnum f) (Z.pos (Qden f)).

(** [a > b] on floats. *)
Definition float_gt (a b : Q) : bool := negb (Qle_bool a b).

(** The range of integers on which the float64 arithmetic of the damage
    model is exact (and on which [int] subtraction does not overflow). *)
Definition stat_ok (z : Z) : Prop := - 2 ^ 51 <= z <= 2 ^ 51.

(** Rounding to the nearest integer, halves away from zero ([math.Round]). *)
Definition round_nearest (q : Q) : Z :=
  if Qle_bool 0 q then Qfloor (q + (1 # 2)) else Qceiling (q - (1 # 2)).

(** The result of a call that can block for ever: it returns with a
    state, panics, or blocks in a state. *)
Inductive result (A : Type) : Type :=
  | Returns (a : A)
  | Panics
  | Blocks (a : A).

Arguments Returns {A} a.
Arguments Panics {A}.
Arguments Blocks {A} a.

(** A panic of a callee is a panic of the caller. *)
Definition orPanic {A B : Type} (o : option A) (k : A -> result B) : result B :=
  match o with
  | Some a => k a
  | None => Panics
  end.

(** ** Data model *)

(** [type Pokemon struct] of server.go.  [Owner] is only written by the
    unfinished [handleBattle] and is left out. *)
Record Pokemon : Type := mkPokemon {
  Name : string;
  Types : list string;         (* field [Type] *)
  HP : Z;
  BaseExp : Z;
  Attack : Z;
  Defense : Z;
  Speed : Z;
  SpecialAttack : Z;
  SpecialDefense : Z;
  Level : Z;
  AccumExp : Z;
  EV : Q
}.

Definition set_HP (p : Pokemon) (hp : Z) : Pokemon :=
  mkPokemon (Name p) (Types p) hp (BaseExp p) (Attack p) (Defense p)
    (Speed p) (SpecialAttack p) (SpecialDefense p) (Level p) (AccumExp p)
    (EV p).

Definition set_Level_EV (p : Pokemon) (lvl : Z) (ev : Q) : Pokemon :=
  mkPokemon (Name p) (Types p) (HP p) (BaseExp p) (Attack p) (Defense p)
    (Speed p) (SpecialAttack p) (SpecialDefense p) lvl (AccumExp p) ev.

(** The pokedex slice is the store that every [*Pokemon] points into. *)
Abbreviation Pokedex := (list Pokemon).

(** Dereference of a possibly nil pointer. *)
Definition deref (pokedex : Pokedex) (p : option nat) : option Pokemon :=
  match p with
  | Some i => pokedex !! i
  | None => None
  end.

(** ** Type chart *)

Local Open Scope string_scope.

Definition typeChart : gmap string (gmap string Q) :=
  list_to_map [
    ("Normal", list_to_map [("Rock", 1#2); ("Ghost", 0#1); ("Steel", 1#2)]);
    ("Fire", list_to_map [("Fire", 1#2); ("Water", 1#2); ("Grass", 2#1);
       ("Ice", 2#1); ("Bug", 2#1); ("Rock", 1#2); ("Dragon", 1#2);
       ("Steel", 2#1)]);
    ("Water", list_to_map [("Fire", 2#1); ("Water", 1#2); ("Grass", 1#2);
       ("Ground", 2#1); ("Rock", 2#1); ("Dragon", 1#2)]);
    ("Electric", list_to_map [("Water", 2#1); ("Electric", 1#2);
       ("Grass", 1#2); ("Ground", 0#1); ("Flying", 2#1); ("Dragon", 1#2)]);
    ("Grass", list_to_map [("Fire", 1#2); ("Water", 2#1); ("Grass", 1#2);
       ("Poison", 1#2); ("Ground", 2#1); ("Flying", 1#2); ("Bug", 1#2);
       ("Rock", 2#1); ("Dragon", 1#2); ("Steel", 1#2)]);
    ("Ice", list_to_map [("Fire", 1#2); ("Water", 1#2); ("Grass", 2#1);
       ("Ice", 1#2); ("Ground", 2#1); ("Flying", 2#1); ("Dragon", 2#1);
       ("Steel", 1#2)]);
    ("Fighting", list_to_map [("Normal", 2#1); ("Ice", 2#1); ("Poison", 1#2);
       ("Flying", 1#2); ("Psychic", 1#2); ("Bug", 1#2); ("Rock", 2#1);
       ("Ghost", 0#1); ("Dark", 2#1); ("Steel", 2#1); ("Fairy", 1#2)]);
    ("Poison", list_to_map [("Grass", 2#1); ("Poison", 1#2); ("Ground", 1#2);
       ("Rock", 1#2); ("Ghost", 1#2); ("Steel", 0#1); ("Fairy", 2#1)]);
    ("Ground", list_to_map [("Fire", 2#1); ("Electric", 2#1); ("Grass", 1#2);
       ("Poison", 2#1); ("Flying", 0#1); ("Bug", 1#2); ("Rock", 2#1);
       ("Steel", 2#1)]);
    ("Flying", list_to_map [("Electric", 1#2); ("Grass", 2#1);
       ("Fighting", 2#1); ("Bug", 2#1); ("Rock", 1#2); ("Steel", 1#2)]);
    ("Psychic", list_to_map [("Fighting", 2#1); ("Poison", 2#1);
       ("Psychic", 1#2); ("Dark", 0#1); ("Steel", 1#2)]);
    ("Bug", list_to_map [("Fire", 1#2); ("Grass", 2#1); ("Fighting", 1#2);
       ("Poison", 1#2); ("Flying", 1#2); ("Psychic", 2#1); ("Ghost", 1#2);
       ("Dark", 2#1); ("Steel", 1#2); ("Fairy", 1#2)]);
    ("Rock", list_to_map [("Fire", 2#1); ("Ice", 2#1); ("Fighting", 1#2);
       ("Ground", 1#2); ("Flying", 2#1); ("Bug", 2#1); ("Steel", 1#2)]);
    ("Ghost", list_to_map [("Normal", 0#1); ("Psychic", 2#1); ("Ghost", 2#1);
       ("Dark", 1#2)]);
    ("Dragon", list_to_map [("Dragon", 2#1); ("Steel", 1#2); ("Fairy", 0#1)]);
    ("Dark", list_to_map [("Fighting", 1#2); ("Psychic", 2#1); ("Ghost", 2#1);
       ("Dark", 1#2); ("Fairy", 1#2)]);
    ("Steel", list_to_map [("Fire", 1#2); ("Water", 1#2); ("Electric", 1#2);
       ("Ice", 2#1); ("Rock", 2#1); ("Steel", 1#2); ("Fairy", 2#1)]);
    ("Fairy", list_to_map [("Fire", 1#2); ("Poison", 1#2); ("Fighting", 2#1);
       ("Dragon", 2#1); ("Dark", 2#1); ("Steel", 1#2)])
  ].

Local Close Scope string_scope.

(** ** Damage model (server.go, "Pokebat") *)

Definition calculateNormalDamage (pokedex : Pokedex)
    (attacker defender : option nat) : option Z :=
  match attacker, defender with
  | Some a, Some d =>
      pa ← pokedex !! a;
      pd ← pokedex !! d;
      let damage := int_sub (Attack pa) (Defense pd) in
      Some (if damage <? 0 then 0 else damage)
  | _, _ => Some 0   (* logs the error and returns 0 *)
  end.

Definition calculateTypeEffectiveness (attackerType defenderType : string) : Q :=
  match typeChart !! attackerType with
  | Some defenderTypes =>
      match defenderTypes !! defenderType with
      | Some multiplier => multiplier
      | None => 1
      end
  | None => 1
  end.

(** One pass of the inner loop body: [if multiplier > maxMultiplier]. *)
Definition bump (maxMultiplier multiplier : Q) : Q :=
  if float_gt multiplier maxMultiplier then multiplier else maxMultiplier.

(** The two nested [range] loops of [calculateSpecialDamage], started from
    [maxMultiplier := 1.0]. *)
Definition maxMultiplier (attackerTypes defenderTypes : list string) : Q :=
  fold_left
    (fun acc attackerType =>
       fold_left
         (fun acc defenderType =>
            bump acc (calculateTypeEffectiveness attackerType defenderType))
         defenderTypes acc)
    attackerTypes 1%Q.

Definition calculateSpecialDamage (pokedex : Pokedex)
    (attacker defender : option nat) : option Z :=
  pa ← deref pokedex attacker;
  pd ← deref pokedex defender;
  let m := maxMultiplier (Types pa) (Types pd) in
  let damage :=
    int_of_float64
      (float64_of_int (SpecialAttack pa) * m
       - float64_of_int (SpecialDefense pd))%Q in
  Some (if damage <? 0 then 0 else damage).

(** The multiplier in the words of the specification: "the maximum
    multiplier over the cross product of attacker types and defender types",
    each pair looked up with [calculateTypeEffectiveness]. *)
Definition pairMultipliers (attackerTypes defenderTypes : list string) : list Q :=
  flat_map
    (fun attackerType =>
       map (calculateTypeEffectiveness attackerType) defenderTypes)
    attackerTypes.

Definition spec_maxOverPairs (attackerTypes defenderTypes : list string)
    : option Q :=
  match pairMultipliers attackerTypes defenderTypes with
  | [] => None
  | m :: ms => Some (fold_left bump ms m)
  end.

(** The multipliers that occur in [typeChart]. *)
Definition chart_value (q : Q) : bool :=
  match q with
  | Qmake n d =>
      ((n =? 0) && (d =? 1)%positive) || ((n =? 1) && (d =? 2)%positive)
      || ((n =? 2) && (d =? 1)%positive)
  end.

Definition chart_checked : bool :=
  forallb
    (fun row : string * gmap string Q =>
       forallb (fun e : string * Q => chart_value e.2) (map_to_list row.2))
    (map_to_list typeChart).

(** ** The two-socket battle ([handleConnection] and [main], server.go) *)

(** [type Client struct]: the fields the battle and the world loop use.
    Connections are identified by a number. *)
Record Client : Type := mkClient {
  team : list nat;
  isActive : bool;
  X : Z;
  Y : Z;
  AutoMode : bool;
  AutoUntil : Z
}.

Definition set_team (c : Client) (t : list nat) : Client :=
  mkClient t (isActive c) (X c) (Y c) (AutoMode c) (AutoUntil c).

Definition set_isActive (c : Client) (b : bool) : Client :=
  mkClient (team c) b (X c) (Y c) (AutoMode c) (AutoUntil c).

Definition set_pos (c : Client) (x y : Z) : Client :=
  mkClient (team c) (isActive c) x y (AutoMode c) (AutoUntil c).

Definition set_AutoMode (c : Client) (b : bool) : Client :=
  mkClient (team c) (isActive c) (X c) (Y c) b (AutoUntil c).

Definition newClient : Client := mkClient [] false 0 0 false 0.

(** The shared state of a battle: the pokedex slice that both handlers
    were given, and the [clients] map. *)
Record Battle : Type := mkBattle {
  b_pokedex : Pokedex;
  clients : gmap nat Client
}.

(** The team selection loop: three accepted picks; an input that is not a
    number ([None]) or is out of range is answered with "Invalid choice" and
    asked again.  Running out of input is the read error that ends the
    handler. *)
Fixpoint chooseTeam (pokedex : Pokedex) (picks : nat)
    (inputs : list (option Z)) (c : Client) : option Client :=
  match picks with
  | O => Some c
  | S picks' =>
      match inputs with
      | [] => None
      | input :: rest =>
          match input with
          | Some choice =>
              if (choice <? 1) || (Z.of_nat (length pokedex) <? choice)
              then chooseTeam pokedex picks rest c
              else chooseTeam pokedex picks' rest
                     (set_team c (team c ++ [Z.to_nat (choice - 1)]))
          | None => chooseTeam pokedex picks rest c
          end
      end
  end.

(** [main] after both handlers are ready: the faster lead creature moves
    first, a coin ([rand.Intn(2)]) decides a tie. *)
Definition electFirst (pokedex : Pokedex) (c1 c2 : Client) (coin : Z)
    : option (Client * Client) :=
  l1 ← head (team c1);
  l2 ← head (team c2);
  p1 ← pokedex !! l1;
  p2 ← pokedex !! l2;
  if Speed p2 <? Speed p1 then Some (set_isActive c1 true, c2)
  else if Speed p1 <? Speed p2 then Some (c1, set_isActive c2 true)
  else if coin =? 0 then Some (set_isActive c1 true, c2)
  else Some (c1, set_isActive c2 true).

(** Connections 1 and 2 pick their teams and the first turn is elected. *)
Definition startBattle (pokedex : Pokedex) (inputs1 inputs2 : list (option Z))
    (coin : Z) : option Battle :=
  c1 ← chooseTeam pokedex 3 inputs1 newClient;
  c2 ← chooseTeam pokedex 3 inputs2 newClient;
  '(c1', c2') ← electFirst pokedex c1 c2 coin;
  Some (mkBattle pokedex (<[1%nat := c1']> (<[2%nat := c2']> ∅))).

(** [for otherConn, otherClient := range clients]: the first entry of
    another connection. *)
Definition findOpponent (cs : gmap nat Client) (conn : nat)
    : option (nat * Client) :=
  head (filter (fun kv : nat * Client => kv.1 ≠ conn) (map_to_list cs)).

(** What one pass of the battle loop of [handleConnection] does. *)
Inductive TurnOutcome : Type :=
  | Waiting          (* not active, or no team: sleeps and checks again *)
  | InvalidChoice    (* "Invalid attack choice. Try again." *)
  | NoOpponent       (* "Opponent has no Pokémon left!" *)
  | Hit (b' : Battle) (defender : nat) (damage : Z) (won : bool).

Definition battleTurn (b : Battle) (conn : nat) (attackInput : option Z)
    : option TurnOutcome :=
  client ← clients b !! conn;
  match isActive client, team client with
  | true, attacker :: _ =>
      match attackInput with
      | None => Some InvalidChoice
      | Some attackChoice =>
          if (attackChoice <? 1) || (2 <? attackChoice) then Some InvalidChoice
          else
            match findOpponent (clients b) conn with
            | None => Some NoOpponent
            | Some (oconn, opponentClient) =>
                match team opponentClient with
                | [] => Some NoOpponent
                | defender :: rest =>
                    damage ←
                      (if attackChoice =? 1
                       then calculateNormalDamage (b_pokedex b)
                              (Some attacker) (Some defender)
                       else calculateSpecialDamage (b_pokedex b)
                              (Some attacker) (Some defender));
                    pd ← b_pokedex b !! defender;
                    let hp := int_sub (HP pd) damage in
                    let pokedex' := <[defender := set_HP pd hp]> (b_pokedex b) in
                    if hp <=? 0 then
                      (* fainted: opponentClient.team = team[1:] *)
                      let opponent' := set_team opponentClient rest in
                      match rest with
                      | [] =>
                          Some (Hit (mkBattle pokedex'
                                       (<[oconn := opponent']> (clients b)))
                                  defender damage true)
                      | _ :: _ =>
                          Some (Hit (mkBattle pokedex'
                                       (<[oconn := set_isActive opponent' true]>
                                          (<[conn := set_isActive client false]>
                                             (clients b))))
                                  defender damage false)
                      end
                    else
                      Some (Hit (mkBattle pokedex'
                                   (<[oconn := set_isActive opponentClient true]>
                                      (<[conn := set_isActive client false]>
                                         (clients b))))
                              defender damage false)
                end
            end
      end
  | _, _ => Some Waiting
  end.

(** ** The Pokeworld: spawning, despawn timers and the session loop *)

Definition worldSizeX : Z := 1000.
Definition worldSizeY : Z := 1000.

(** A timer made by [time.AfterFunc]: its closure captured the cell
    [(x, y)] and the [pokemon] pointer; [tPending] is false once the timer
    has fired. *)
Record Timer : Type := mkTimer {
  tX : Z;
  tY : Z;
  tPokemon : nat;
  tPending : bool
}.

(** [type Pokeworld struct].  A grid cell that holds nil is absent from
    [grid].  [timers] is the runtime's table of the timers created so far
    (a [*time.Timer] is an index into it); [despawnTimers] is the program's
    map from [*Pokemon] to [*time.Timer]. *)
Record Pokeworld : Type := mkPokeworld {
  grid : gmap (Z * Z) nat;
  players : gmap nat Client;
  pokedex : Pokedex;
  despawnTimers : gmap nat nat;
  TotalPokemon : Z;
  timers : list Timer
}.

(** The values drawn by one iteration of the spawn loop: the raw results
    behind [rand.Intn(worldSizeX)], [rand.Intn(worldSizeY)],
    [rand.Intn(len(pw.pokedex))], [rand.Intn(100)] and [rand.Float64()]. *)
Record SpawnDraw : Type := mkSpawnDraw {
  drawX : Z;
  drawY : Z;
  drawIndex : Z;
  drawLevel : Z;
  drawEV : Q
}.

(** [rand.Intn(n)]: a value of [0, n); panics when [n <= 0]. *)
Definition Intn (n raw : Z) : option Z :=
  if n <=? 0 then None else Some (raw mod n).

(** The body of the spawn loop. *)
Definition spawnOne (d : SpawnDraw) (pw : Pokeworld) : option Pokeworld :=
  x ← Intn worldSizeX (drawX d);
  y ← Intn worldSizeY (drawY d);
  match grid pw !! (x, y) with
  | Some _ => Some pw
  | None =>
      pokemonIndex ← Intn (Z.of_nat (length (pokedex pw))) (drawIndex d);
      lvl ← Intn 100 (drawLevel d);
      let pokemon := Z.to_nat pokemonIndex in       (* &pw.pokedex[pokemonIndex] *)
      entry ← pokedex pw !! pokemon;
      let entry' :=
        set_Level_EV entry (int_add lvl 1) (drawEV d * (1 # 2) + (1 # 2))%Q in
      let despawnTimer := length (timers pw) in
      Some (mkPokeworld
              (<[(x, y) := pokemon]> (grid pw))
              (players pw)
              (<[pokemon := entry']> (pokedex pw))
              (<[pokemon := despawnTimer]> (despawnTimers pw))
              (TotalPokemon pw)
              (timers pw ++ [mkTimer x y pokemon true]))
  end.

(** [for i := 0; i < numPokemon && pw.TotalPokemon < 50; i++]; the oracle
    [rand] gives the draws of iteration [i]. *)
Fixpoint spawnLoop (rand : nat -> SpawnDraw) (i remaining : nat)
    (pw : Pokeworld) : option Pokeworld :=
  match remaining with
  | O => Some pw
  | S remaining' =>
      if TotalPokemon pw <? 50 then
        pw' ← spawnOne (rand i) pw;
        spawnLoop rand (S i) remaining' pw'
      else Some pw
  end.

Definition spawnPokemon (rand : nat -> SpawnDraw) (numPokemon : Z)
    (pw : Pokeworld) : option Pokeworld :=
  spawnLoop rand 0 (Z.to_nat numPokemon) pw.

(** The closure given to [time.AfterFunc] in [spawnPokemon]. *)
Definition despawnCallback (t : Timer) (pw : Pokeworld) : Pokeworld :=
  if decide (grid pw !! (tX t, tY t) = Some (tPokemon t)) then
    mkPokeworld
      (delete (tX t, tY t) (grid pw))
      (players pw)
      (pokedex pw)
      (delete (tPokemon t) (despawnTimers pw))
      (int_sub (TotalPokemon pw) 1)
      (timers pw)
  else pw.

Definition set_timers (pw : Pokeworld) (ts : list Timer) : Pokeworld :=
  mkPokeworld (grid pw) (players pw) (pokedex pw) (despawnTimers pw)
    (TotalPokemon pw) ts.

Definition disarm (t : Timer) : Timer :=
  mkTimer (tX t) (tY t) (tPokemon t) false.

(** The despawn duration of timer [id] elapses: a pending timer runs its
    callback once; a stopped or already fired timer does nothing. *)
Definition timerElapses (id : nat) (pw : Pokeworld) : Pokeworld :=
  match timers pw !! id with
  | Some t =>
      if tPending t
      then despawnCallback t (set_timers pw (<[id := disarm t]> (timers pw)))
      else pw
  | None => pw
  end.

(** The movement [switch] of [handlePlayer] (second draft of part_000).
    ["auto"] only matches the bare word, whose split has one part, so it
    changes nothing. *)
Definition movePlayer (input : string) (c : Client) : Client :=
  if decide (input = "up"%string) then
    (if 0 <? Y c then set_pos c (X c) (int_sub (Y c) 1) else c)
  else if decide (input = "down"%string) then
    (if Y c <? worldSizeY - 1 then set_pos c (X c) (int_add (Y c) 1) else c)
  else if decide (input = "left"%string) then
    (if 0 <? X c then set_pos c (int_sub (X c) 1) (Y c) else c)
  else if decide (input = "right"%string) then
    (if X c <? worldSizeX - 1 then set_pos c (int_add (X c) 1) (Y c) else c)
  else c.

(** [pw.grid[x][y]] is an index into a [worldSizeX] by [worldSizeY] array:
    outside of it the access panics. *)
Definition inGrid (x y : Z) : bool :=
  (0 <=? x) && (x <? worldSizeX) && (0 <=? y) && (y <? worldSizeY).

(** One pass of the loop of [handlePlayer] for the session [conn], after
    the line [input] was read.  The pass locks [client] and [pw]
    (part_000, lines 779-780), runs the movement switch, and locks
    [client] again (line 813) while it holds it: it blocks there for
    ever, with both mutexes locked.  The two capture blocks, the battle
    check and the auto-mode block behind that line are never reached.
    The session registers itself in [pw.players] before the loop;
    [Panics] stands for a connection that is not registered.  As for
    every function, the mutexes are free at the call: a pass that starts
    while another session holds them blocks at its first [pw.Lock()],
    before the switch. *)
Definition handlePlayer (conn : nat) (input : string) (pw : Pokeworld)
    : result Pokeworld :=
  orPanic (players pw !! conn) (fun client =>
    let client1 := movePlayer input client in
    Blocks (mkPokeworld (grid pw) (<[conn := client1]> (players pw))
              (pokedex pw) (despawnTimers pw) (TotalPokemon pw) (timers pw))).

(** Does the goroutine hold the mutexes it has locked once the call is
    over?  A call that returns or panics has run its unlocks (they are
    deferred or the last statements); a call that blocks has not. *)
Definition holdsMutex {A : Type} (r : result A) : bool :=
  match r with
  | Blocks _ => true
  | Returns _ | Panics => false
  end.

(** The state in which a call has left the program, [d] after a panic. *)
Definition stateAfter {A : Type} (d : A) (r : result A) : A :=
  match r with
  | Returns a | Blocks a => a
  | Panics => d
  end.

(** The goroutines that start with [pw.Lock()]: the despawn callback of
    timer [id], and one cycle of the spawn loop.  With the mutex of the
    Pokeworld [held] for ever by a blocked session they block before
    their first statement. *)
Definition despawnFires (held : bool) (id : nat) (pw : Pokeworld)
    : result Pokeworld :=
  if held then Blocks pw else Returns (timerElapses id pw).

Definition spawnCycle (held : bool) (rand : nat -> SpawnDraw) (n : Z)
    (pw : Pokeworld) : result Pokeworld :=
  if held then Blocks pw
  else orPanic (spawnPokemon rand n pw) Returns.

(** ** The [Player] world of server.go ([handlePlayerMovement],
    [handleEncounter]) *)

Module PlayerWorld.

(** [type Player struct]; [Pokemons] is [map[int]Pokemon]. *)
Record Player : Type := mkPlayer {
  ID : Z;
  X : Z;
  Y : Z;
  Pokemons : gmap Z Pokemon
}.

(** The globals [world] and the players it points to.  A [*Player] is an
    address in [heap]; a nil cell is absent from [world].  [worldSize] is
    [len(world)], and every row is taken to have that length (the
    program declares a square world). *)
Record World : Type := mkWorld {
  worldSize : Z;
  world : gmap (Z * Z) nat;
  heap : gmap nat Player
}.

Definition inWorld (w : World) (x y : Z) : bool :=
  (0 <=? x) && (x <? worldSize w) && (0 <=? y) && (y <? worldSize w).

(** [world[x][y]], which panics outside of the array. *)
Definition cellAt (w : World) (x y : Z) : option (option nat) :=
  if inWorld w x y then Some (world w !! (x, y)) else None.

Definition set_pos (p : Player) (x y : Z) : Player :=
  mkPlayer (ID p) x y (Pokemons p).

Definition set_Pokemons (p : Player) (ps : gmap Z Pokemon) : Player :=
  mkPlayer (ID p) (X p) (Y p) ps.

(** The [switch direction]: the new coordinates, [Some None] for the
    [default] case, [None] for the division by zero of an empty world. *)
Definition destination (w : World) (p : Player) (direction : string)
    : option (option (Z * Z)) :=
  if decide (direction = "up"%string) then
    y ← int_rem (int_add (int_sub (Y p) 1) (worldSize w)) (worldSize w);
    Some (Some (X p, y))
  else if decide (direction = "down"%string) then
    y ← int_rem (int_add (Y p) 1) (worldSize w);
    Some (Some (X p, y))
  else if decide (direction = "left"%string) then
    x ← int_rem (int_add (int_sub (X p) 1) (worldSize w)) (worldSize w);
    Some (Some (x, Y p))
  else if decide (direction = "right"%string) then
    x ← int_rem (int_add (X p) 1) (worldSize w);
    Some (Some (x, Y p))
  else Some None.

(** [handleEncounter(player, pokemon)]: below the bound of 200 the
    entries of [pokemon.Pokemons] are copied into [player.Pokemons] and
    the player's cell is cleared; [saveData] is a sink. *)
Definition handleEncounter (player pokemon : nat) (w : World) : option World :=
  p ← heap w !! player;
  q ← heap w !! pokemon;
  if Z.of_nat (size (Pokemons p)) <? 200 then
    _ ← cellAt w (X p) (Y p);
    Some (mkWorld (worldSize w)
            (delete (X p, Y p) (world w))
            (<[player := set_Pokemons p (Pokemons q ∪ Pokemons p)]> (heap w)))
  else Some w.

(** [handlePlayerMovement(player, direction)].  It holds [player.mutex]
    until it returns (line 324, deferred unlock).  After an unblocked
    move [world[player.X][player.Y]] is the player itself, so the
    encounter test of line 360 is [len(player.Pokemons) > 0]; the call
    [handleEncounter(player, player)] of line 361 then locks
    [player.mutex] (line 370), which this goroutine holds: it blocks
    there for ever, the move already made. *)
Definition handlePlayerMovement (player : nat) (direction : string)
    (w : World) : result World :=
  orPanic (heap w !! player) (fun p =>
  let '(originalX, originalY) := (X p, Y p) in
  orPanic (destination w p direction) (fun dest =>
  match dest with
  | None => Returns w                    (* invalid direction, do nothing *)
  | Some (x, y) =>
      orPanic (cellAt w x y) (fun occupant =>
      orPanic
        match occupant with
        | Some other =>
            o ← heap w !! other; Some (bool_decide (size (Pokemons o) = 0%nat))
        | None => Some false
        end (fun blocked : bool =>
      if blocked then Returns w          (* reset to the original position *)
      else
        orPanic (cellAt w originalX originalY) (fun _ =>
        let w' :=
          mkWorld (worldSize w)
            (<[(x, y) := player]> (delete (originalX, originalY) (world w)))
            (<[player := set_pos p x y]> (heap w)) in
        if bool_decide (size (Pokemons p) = 0%nat) then Returns w'
        else Blocks w')))
  end)).

(** The position of a player. *)
Definition position (w : World) (player : nat) : option (Z * Z) :=
  p ← heap w !! player; Some (X p, Y p).

End PlayerWorld.

(** ** Concrete pokedex entries and scenarios *)

Definition bulbasaur : Pokemon :=
  mkPokemon "bulbasaur" ["Grass"; "Poison"]%string 45 64 49 49 45 65 65 1 0 (1 # 2).
Definition charmander : Pokemon :=
  mkPokemon "charmander" ["Fire"]%string 39 62 52 43 65 60 50 1 0 (1 # 2).
Definition squirtle : Pokemon :=
  mkPokemon "squirtle" ["Water"]%string 44 63 48 65 43 50 64 1 0 (1 # 2).
Definition arcanine : Pokemon :=
  mkPokemon "arcanine" ["Fire"]%string 90 194 110 80 95 100 80 1 0 (1 # 2).

Definition examplePokedex : Pokedex := [bulbasaur; charmander; squirtle; arcanine].

(** A Fire attacker with an odd special attack and a Water defender. *)
Definition ponyta : Pokemon :=
  mkPokemon "ponyta" ["Fire"]%string 50 152 85 55 90 65 65 1 0 (1 # 2).
Definition magikarp : Pokemon :=
  mkPokemon "magikarp" ["Water"]%string 20 20 10 55 80 15 20 1 0 (1 # 2).

(** The accumulator of [calculateSpecialDamage] only takes these values. *)
Definition one_or_two (q : Q) : Prop := q = 1%Q \/ q = 2%Q.

(** The special damage before the conversion to [int]. *)
Definition specialRaw (pa pd : Pokemon) : Q :=
  (float64_of_int (SpecialAttack pa) * maxMultiplier (Types pa) (Types pd)
   - float64_of_int (SpecialDefense pd))%Q.

(** The special damage as the specification words it: the maximum over
    the pairs as multiplier, rounding to the nearest integer. *)
Definition spec_specialDamage (pa pd : Pokemon) : option Z :=
  m ← spec_maxOverPairs (Types pa) (Types pd);
  Some (Z.max 0
          (round_nearest
             (float64_of_int (SpecialAttack pa) * m
              - float64_of_int (SpecialDefense pd))%Q)).

(** The same formula with the truncating conversion [int(...)]. *)
Definition spec_specialDamage_truncated (pa pd : Pokemon) : option Z :=
  m ← spec_maxOverPairs (Types pa) (Types pd);
  Some (Z.max 0
          (int_of_float64
             (float64_of_int (SpecialAttack pa) * m
              - float64_of_int (SpecialDefense pd))%Q)).

(** The values a looked-up multiplier can have. *)
Definition chart_or_default (q : Q) : Prop :=
  q = 0%Q \/ q = (1 # 2)%Q \/ q = 1%Q \/ q = 2%Q.

(** ** Battle states that a run can reach *)

Inductive reachable : Battle -> Prop :=
  | reach_start (pokedex : Pokedex) (inputs1 inputs2 : list (option Z))
      (coin : Z) (b : Battle) :
      startBattle pokedex inputs1 inputs2 coin = Some b -> reachable b
  | reach_turn (b : Battle) (conn : nat) (input : option Z) (b' : Battle)
      (defender : nat) (damage : Z) (won : bool) :
      reachable b ->
      battleTurn b conn input = Some (Hit b' defender damage won) ->
      reachable b'.

(** The clamp as the specification words it: after a hit, the HP of the
    struck creature is not negative. *)
Definition hp_clamped_at_zero : Prop :=
  forall (b : Battle) (conn : nat) (input : option Z) (b' : Battle)
         (defender : nat) (damage : Z) (won : bool) (pd' : Pokemon),
    reachable b ->
    battleTurn b conn input = Some (Hit b' defender damage won) ->
    b_pokedex b' !! defender = Some pd' ->
    0 <= HP pd'.

(** Connection 1 picks Arcanine, Charmander, Squirtle; connection 2 picks
    Bulbasaur, Squirtle, Charmander. *)
Definition exampleStart : option Battle :=
  startBattle examplePokedex [Some 4; Some 2; Some 3] [Some 1; Some 3; Some 2] 0.

Definition exampleBattle : Battle :=
  mkBattle examplePokedex
    (<[1%nat := mkClient [3; 1; 2]%nat true 0 0 false 0]>
       (<[2%nat := mkClient [0; 2; 1]%nat false 0 0 false 0]> ∅)).

(** The state after connection 1 has used its normal attack. *)
Definition exampleBattleAfterHit : Battle :=
  mkBattle
    [set_HP bulbasaur (-16); charmander; squirtle; arcanine]
    (<[2%nat := mkClient [2; 1]%nat true 0 0 false 0]>
       (<[1%nat := mkClient [3; 1; 2]%nat false 0 0 false 0]>
          (clients exampleBattle))).

(** ** The registry under the operations of the program *)

(** The fields that no operation writes. *)
Definition same_template (p q : Pokemon) : Prop :=
  Name q = Name p /\ Types q = Types p /\ BaseExp q = BaseExp p
  /\ Attack q = Attack p /\ Defense q = Defense p /\ Speed q = Speed p
  /\ SpecialAttack q = SpecialAttack p /\ SpecialDefense q = SpecialDefense p
  /\ AccumExp q = AccumExp p.

(** One operation on the pokedex slice: a spawn cycle, a team selection,
    a hit in a battle, a pass of the session loop (the movement, up to
    the point where the pass blocks), the elapse of a despawn timer. *)
Inductive registry_step : Pokedex -> Pokedex -> Prop :=
  | step_spawn (rand : nat -> SpawnDraw) (numPokemon : Z) (pw pw' : Pokeworld) :
      spawnPokemon rand numPokemon pw = Some pw' ->
      registry_step (pokedex pw) (pokedex pw')
  | step_draft (r : Pokedex) (picks : nat) (inputs : list (option Z))
      (c c' : Client) :
      chooseTeam r picks inputs c = Some c' ->
      registry_step r r
  | step_turn (b : Battle) (conn : nat) (input : option Z) (b' : Battle)
      (defender : nat) (damage : Z) (won : bool) :
      battleTurn b conn input = Some (Hit b' defender damage won) ->
      registry_step (b_pokedex b) (b_pokedex b')
  | step_player (conn : nat) (input : string) (pw pw' : Pokeworld) :
      handlePlayer conn input pw = Blocks pw' ->
      registry_step (pokedex pw) (pokedex pw')
  | step_despawn (id : nat) (pw : Pokeworld) :
      registry_step (pokedex pw) (pokedex (timerElapses id pw)).

(** Immutability as the specification words it: no operation changes any
    field of a registry entry. *)
Definition registry_never_mutated : Prop :=
  forall r r' : Pokedex, registry_step r r' -> r' = r.

(** A fresh world over the example pokedex. *)
Definition emptyWorld : Pokeworld := mkPokeworld ∅ ∅ examplePokedex ∅ 0 [].

(** Draws that walk along the row [y = 0] and take the first template. *)
Definition rowDraw (i : nat) : SpawnDraw :=
  mkSpawnDraw (Z.of_nat i) 0 0 41 (1 # 4).

(** ** Scenarios of the Pokeworld *)

(** Two spawn cycles of [spawnPokemonLoop] in a row, each [spawnPokemon(50)],
    the draws walking along the row [y = 0]. *)
Definition firstCycle : option Pokeworld := spawnPokemon rowDraw 50 emptyWorld.

Definition secondCycle : option Pokeworld :=
  pw ← firstCycle; spawnPokemon (fun i => rowDraw (50 + i)) 50 pw.

Definition liveCreatures (pw : Pokeworld) : nat := size (grid pw).

(** A session (connection 7) at cell (1, 0) of an otherwise fresh world. *)
Definition sessionWorld : Pokeworld :=
  mkPokeworld ∅ {[ 7%nat := mkClient [] false 1 0 false 0 ]} examplePokedex ∅ 0 [].

(** Draws that put the first template on a given cell. *)
Definition cellDraw (x y : Z) : SpawnDraw := mkSpawnDraw x y 0 41 (1 # 4).

(** A Bulbasaur spawned on (1, 1), the cell below the session. *)
Definition sessionEncounter : Pokeworld :=
  default sessionWorld (spawnPokemon (fun _ => cellDraw 1 1) 1 sessionWorld).





(** ** Movement *)

Definition directions : list string := ["up"; "down"; "left"; "right"]%string.

(** The move of the specification: the new coordinate is
    (old ± 1 + size) mod size. *)
Definition wrapStep (size : Z) (direction : string) (pos : Z * Z) : Z * Z :=
  let '(x, y) := pos in
  if decide (direction = "up"%string) then (x, (y - 1 + size) mod size)
  else if decide (direction = "down"%string) then (x, (y + 1 + size) mod size)
  else if decide (direction = "left"%string) then ((x - 1 + size) mod size, y)
  else if decide (direction = "right"%string) then ((x + 1 + size) mod size, y)
  else pos.

(** A move that stops at the edges of the 1000 by 1000 grid. *)
Definition clampStep (direction : string) (pos : Z * Z) : Z * Z :=
  let '(x, y) := pos in
  if decide (direction = "up"%string) then (x, Z.max 0 (y - 1))
  else if decide (direction = "down"%string) then (x, Z.min (worldSizeY - 1) (y + 1))
  else if decide (direction = "left"%string) then (Z.max 0 (x - 1), y)
  else if decide (direction = "right"%string) then (Z.min (worldSizeX - 1) (x + 1), y)
  else pos.

(** Every cell of [world] points to a player of the heap. *)
Definition world_ok (w : PlayerWorld.World) : Prop :=
  forall (cell : Z * Z) (q : nat),
    PlayerWorld.world w !! cell = Some q -> is_Some (PlayerWorld.heap w !! q).

(** The guard of [handlePlayerMovement]: the cell holds a player whose
    [Pokemons] map is empty. *)
Definition blocked (w : PlayerWorld.World) (cell : Z * Z) : bool :=
  match PlayerWorld.world w !! cell with
  | Some other =>
      match PlayerWorld.heap w !! other with
      | Some o => bool_decide (size (PlayerWorld.Pokemons o) = 0%nat)
      | None => false
      end
  | None => false
  end.

(** The move as the specification words it, for [handlePlayerMovement]. *)
Definition move_always_wraps : Prop :=
  forall (w : PlayerWorld.World) (player : nat) (p : PlayerWorld.Player)
         (direction : string),
    world_ok w ->
    PlayerWorld.heap w !! player = Some p ->
    PlayerWorld.inWorld w (PlayerWorld.X p) (PlayerWorld.Y p) = true ->
    2 * PlayerWorld.worldSize w <= max_int ->
    direction ∈ directions ->
    exists w' : PlayerWorld.World,
      PlayerWorld.handlePlayerMovement player direction w = Returns w'
      /\ PlayerWorld.position w' player
         = Some (wrapStep (PlayerWorld.worldSize w) direction
                   (PlayerWorld.X p, PlayerWorld.Y p)).

(** A 3 by 3 world: player 1 at (0, 0), player 2 at (0, 2), neither owns
    a Pokémon. *)
Definition twoPlayers : PlayerWorld.World :=
  PlayerWorld.mkWorld 3
    (<[(0, 0) := 1%nat]> (<[(0, 2) := 2%nat]> ∅))
    (<[1%nat := PlayerWorld.mkPlayer 1 0 0 ∅]>
       (<[2%nat := PlayerWorld.mkPlayer 2 0 2 ∅]> ∅)).

(** The same world without player 2. *)
Definition onePlayer : PlayerWorld.World :=
  PlayerWorld.mkWorld 3
    (<[(0, 0) := 1%nat]> ∅)
    (<[1%nat := PlayerWorld.mkPlayer 1 0 0 ∅]> ∅).

(** * Further parts of the program *)

(** ** The names of the type chart *)

(** The eighteen type names that occur in [typeChart], as attacking or as
    defending type. *)
Definition chartTypes : list string :=
  ["Normal"; "Fire"; "Water"; "Electric"; "Grass"; "Ice"; "Fighting";
   "Poison"; "Ground"; "Flying"; "Psychic"; "Bug"; "Rock"; "Ghost";
   "Dragon"; "Dark"; "Steel"; "Fairy"]%string.

Definition chart_keys_checked : bool :=
  forallb
    (fun row : string * gmap string Q =>
       bool_decide (row.1 ∈ chartTypes)
       && forallb (fun e : string * Q => bool_decide (e.1 ∈ chartTypes))
            (map_to_list row.2))
    (map_to_list typeChart).

(** The larger of 1.0 and [s], as the comparison of the loop decides it. *)
Definition atLeastOne (s : Q) : Q := if Qle_bool s 1 then 1%Q else s.

(** ** [getNextActivePokemon] (drafts of part_000) *)

(** [for _, p := range client.team { if p.HP > 0 { return p } }; return nil]:
    the result is a possibly nil pointer. *)
Fixpoint getNextActivePokemon (pokedex : Pokedex) (members : list nat)
    : option (option nat) :=
  match members with
  | [] => Some None
  | p :: rest =>
      entry ← pokedex !! p;
      if 0 <? HP entry then Some (Some p)
      else getNextActivePokemon pokedex rest
  end.

(** The HP that a team member points to is positive. *)
Definition healthy (pokedex : Pokedex) (p : nat) : Prop :=
  exists entry : Pokemon, pokedex !! p = Some entry /\ 0 < HP entry.

Definition fainted (pokedex : Pokedex) (p : nat) : Prop :=
  exists entry : Pokemon, pokedex !! p = Some entry /\ HP entry <= 0.

(** ** Team selection and turn order *)

(** An input line that the selection loop accepts: a number between 1 and
    the size of the pokedex. *)
Definition validChoice (pokedex : Pokedex) (input : option Z) : bool :=
  match input with
  | Some choice =>
      negb ((choice <? 1) || (Z.of_nat (length pokedex) <? choice))
  | None => false
  end.

(** The [clients] map holds connection 1 and connection 2, and exactly one
    of them has the turn. *)
Definition one_turn_owner (b : Battle) : Prop :=
  exists c1 c2 : Client,
    clients b = <[1%nat := c1]> (<[2%nat := c2]> ∅)
    /\ isActive c1 = negb (isActive c2).

(** A creature without a type, as an entry with an empty type list gives. *)
Definition untyped : Pokemon :=
  mkPokemon "missingno" [] 33 0 136 0 29 6 6 1 0 (1 # 2).

(** ** The full input switch of [handlePlayer] *)

(** [strings.Split(s, sep)] for a separator of one character: the pieces
    between the occurrences of [sep]; a string without [sep] is its only
    piece. *)
Fixpoint splitOn (sep : Ascii.ascii) (s : string) : list string :=
  match s with
  | EmptyString => [EmptyString]
  | String ch rest =>
      if decide (ch = sep) then EmptyString :: splitOn sep rest
      else
        match splitOn sep rest with
        | piece :: pieces => String ch piece :: pieces
        | [] => [String ch EmptyString]
        end
  end.

Definition set_AutoUntil (c : Client) (t : Z) : Client :=
  mkClient (team c) (isActive c) (X c) (Y c) (AutoMode c) t.

(** The [switch input] of [handlePlayer] with its ["auto"] case written
    out.  [Atoi] stands for [strconv.Atoi] (its error is dropped by the
    program, which leaves 0); times are in seconds. *)
Definition handlePlayerSwitch (Atoi : string -> option Z) (input : string)
    (now : Z) (c : Client) : Client :=
  if decide (input = "up"%string) then
    (if 0 <? Y c then set_pos c (X c) (int_sub (Y c) 1) else c)
  else if decide (input = "down"%string) then
    (if Y c <? worldSizeY - 1 then set_pos c (X c) (int_add (Y c) 1) else c)
  else if decide (input = "left"%string) then
    (if 0 <? X c then set_pos c (int_sub (X c) 1) (Y c) else c)
  else if decide (input = "right"%string) then
    (if X c <? worldSizeX - 1 then set_pos c (int_add (X c) 1) (Y c) else c)
  else if decide (input = "auto"%string) then
    let parts := splitOn Ascii.Space input in
    if (1 <? length parts)%nat then
      let duration := default 0 (Atoi (nth 1 parts EmptyString)) in
      if 0 <? duration then
        let c' := set_AutoMode c (negb (AutoMode c)) in
        if AutoMode c' then set_AutoUntil c' (int_add now duration) else c'
      else c
    else c
  else c.

(** ** Operations on the Pokeworld *)

(** A spawn cycle, a pass of the session loop (up to the point where it
    blocks), or the elapse of a timer. *)
Inductive world_step : Pokeworld -> Pokeworld -> Prop :=
  | wstep_spawn (rand : nat -> SpawnDraw) (numPokemon : Z) (pw pw' : Pokeworld) :
      spawnPokemon rand numPokemon pw = Some pw' -> world_step pw pw'
  | wstep_player (conn : nat) (input : string) (pw pw' : Pokeworld) :
      handlePlayer conn input pw = Blocks pw' -> world_step pw pw'
  | wstep_timer (id : nat) (pw : Pokeworld) :
      world_step pw (timerElapses id pw).

(** The cell that a draw selects. *)
Definition drawnCell (d : SpawnDraw) : Z * Z :=
  (drawX d mod worldSizeX, drawY d mod worldSizeY).

(** ** [addPlayer] (server.go) *)

(** The globals [playerID], [players] and [world]. *)
Record Server : Type := mkServer {
  playerID : Z;
  playerList : list nat;
  sworld : PlayerWorld.World
}.

(** [addPlayer(x, y)]: the next id, a new [Player] at a fresh address with
    an empty [Pokemons] map, appended to [players] and written into
    [world[x][y]]; the result is the pointer. *)
Definition addPlayer (x y : Z) (s : Server) : option (nat * Server) :=
  let id := int_add (playerID s) 1 in
  let player := fresh (dom (PlayerWorld.heap (sworld s))) in
  let w := sworld s in
  _ ← PlayerWorld.cellAt w x y;
  Some (player,
        mkServer id (playerList s ++ [player])
          (PlayerWorld.mkWorld (PlayerWorld.worldSize w)
             (<[(x, y) := player]> (PlayerWorld.world w))
             (<[player := PlayerWorld.mkPlayer id x y ∅]> (PlayerWorld.heap w)))).

(** The part of the state that spawning keeps, and how the rest grows:
    occupied cells and existing timers stay, levels that are in range stay
    in range. *)
Definition spawn_extends (pw pw' : Pokeworld) : Prop :=
  TotalPokemon pw' = TotalPokemon pw
  /\ players pw' = players pw
  /\ length (pokedex pw') = length (pokedex pw)
  /\ (forall (cell : Z * Z) (p : nat),
        grid pw !! cell = Some p -> grid pw' !! cell = Some p)
  /\ (forall (id : nat) (t : Timer),
        timers pw !! id = Some t -> timers pw' !! id = Some t)
  /\ (length (timers pw) <= length (timers pw'))%nat
  /\ (forall (p : nat) (e : Pokemon),
        pokedex pw !! p = Some e -> 1 <= Level e <= 100 ->
        exists e' : Pokemon, pokedex pw' !! p = Some e' /\ 1 <= Level e' <= 100).

(** ** Further scenarios *)

(** A world whose pokedex is empty. *)
Definition barrenWorld : Pokeworld := mkPokeworld ∅ ∅ [] ∅ 0 [].

(** The [world] of server.go as [main] leaves it: never allocated. *)
Definition unallocated : PlayerWorld.World :=
  PlayerWorld.mkWorld 0 ∅ (<[1%nat := PlayerWorld.mkPlayer 1 0 0 ∅]> ∅).

Definition onePlayerMoved : PlayerWorld.World :=
  stateAfter onePlayer (PlayerWorld.handlePlayerMovement 1 "up" onePlayer).

(** A 3 by 3 world with one player at (0, 0) who owns a Charmander. *)
Definition trainer : PlayerWorld.Player :=
  PlayerWorld.mkPlayer 1 0 0 (<[4 := charmander]> ∅).

Definition trainerWorld : PlayerWorld.World :=
  PlayerWorld.mkWorld 3 (<[(0, 0) := 1%nat]> ∅) (<[1%nat := trainer]> ∅).

(** Player 1 without Pokémon at (0, 0); at address 2 a [Player] that stands
    for a wild Bulbasaur. *)
Definition wild : PlayerWorld.Player :=
  PlayerWorld.mkPlayer 2 0 1 (<[1 := bulbasaur]> ∅).

Definition encounterWorld : PlayerWorld.World :=
  PlayerWorld.mkWorld 3
    (<[(0, 0) := 1%nat]> (<[(0, 1) := 2%nat]> ∅))
    (<[1%nat := PlayerWorld.mkPlayer 1 0 0 ∅]> (<[2%nat := wild]> ∅)).



(** The trainer after the move up from (0, 0). *)
Definition trainerMoved : PlayerWorld.World :=
  stateAfter trainerWorld (PlayerWorld.handlePlayerMovement 1 "up" trainerWorld).

Definition exampleServer : Server := mkServer 1 [1%nat] onePlayer.

Definition addResult : nat * Server :=
  default (0%nat, exampleServer) (addPlayer 0 2 exampleServer).

(** The fresh world after one spawn on (0, 0). *)
Definition spawnedOne : Pokeworld :=
  default emptyWorld (spawnPokemon rowDraw 1 emptyWorld).

(** * Verified properties *)

(** ** Machine integers *)

Lemma wrap_id (z : Z) : min_int <= z <= max_int -> wrap z = z.
Proof.
  unfold wrap, min_int, max_int. intros Hz.
  rewrite Z.mod_small by lia. lia.
Qed.

Lemma wrap_range (z : Z) : min_int <= wrap z <= max_int.
Proof.
  unfold wrap, min_int, max_int.
  pose proof (Z.mod_pos_bound (z + 2 ^ 63) (2 ^ 64) ltac:(lia)). lia.
Qed.

Lemma stat_ok_sub (a b : Z) : stat_ok a -> stat_ok b -> int_sub a b = a - b.
Proof.
  unfold stat_ok, int_sub. intros Ha Hb. apply wrap_id.
  unfold min_int, max_int. lia.
Qed.

(** ** The type chart *)

Lemma chart_checked_true : chart_checked = true.
Proof. vm_compute. reflexivity. Qed.

Lemma chart_value_cases (q : Q) :
  chart_value q = true -> q = 0%Q \/ q = (1 # 2)%Q \/ q = 2%Q.
Proof.
  destruct q as [n d]. unfold chart_value. intros H.
  repeat (apply orb_prop in H; destruct H as [H|H]);
    apply andb_prop in H; destruct H as [Hn Hd];
    apply Z.eqb_eq in Hn; apply Pos.eqb_eq in Hd; subst; auto.
Qed.

Lemma chart_entries (a d : string) (row : gmap string Q) (m : Q) :
  typeChart !! a = Some row -> row !! d = Some m -> chart_value m = true.
Proof.
  intros Ha Hd.
  pose proof chart_checked_true as Hc. unfold chart_checked in Hc.
  rewrite forallb_forall in Hc.
  apply elem_of_map_to_list in Ha. apply list_elem_of_In in Ha.
  specialize (Hc _ Ha). simpl in Hc.
  rewrite forallb_forall in Hc.
  apply elem_of_map_to_list in Hd. apply list_elem_of_In in Hd.
  apply (Hc _ Hd).
Qed.

(** Every looked-up multiplier is 0, 0.5, 1 (the default) or 2. *)
Lemma calculateTypeEffectiveness_values (a d : string) :
  let m := calculateTypeEffectiveness a d in
  m = 0%Q \/ m = (1 # 2)%Q \/ m = 1%Q \/ m = 2%Q.
Proof.
  unfold calculateTypeEffectiveness.
  destruct (typeChart !! a) as [row|] eqn:Ha; simpl; [|auto].
  destruct (row !! d) as [m|] eqn:Hd; simpl; [|auto].
  destruct (chart_value_cases m (chart_entries a d row m Ha Hd)) as [?|[?|?]]; auto.
Qed.

(** A pair that is absent from the chart is neutral, e.g. Normal against
    Water. *)
Lemma calculateTypeEffectiveness_default :
  calculateTypeEffectiveness "Normal" "Water" = 1%Q
  /\ calculateTypeEffectiveness "Fire" "Grass" = 2%Q
  /\ calculateTypeEffectiveness "Fire" "Water" = (1 # 2)%Q
  /\ calculateTypeEffectiveness "fire" "water" = 1%Q.
Proof. vm_compute. auto. Qed.

(** ** The multiplier of [calculateSpecialDamage] *)

Lemma bump_one_or_two (acc : Q) (a d : string) :
  one_or_two acc -> one_or_two (bump acc (calculateTypeEffectiveness a d)).
Proof.
  intros Hacc. pose proof (calculateTypeEffectiveness_values a d) as Hm.
  simpl in Hm. unfold bump, float_gt.
  destruct Hacc as [-> | ->]; destruct Hm as [-> | [-> | [-> | ->]]];
    vm_compute; auto.
Qed.

Lemma inner_loop_one_or_two (a : string) (ds : list string) (acc : Q) :
  one_or_two acc ->
  one_or_two
    (fold_left (fun acc d => bump acc (calculateTypeEffectiveness a d)) ds acc).
Proof.
  revert acc. induction ds as [|d ds IH]; intros acc Hacc; simpl; [exact Hacc|].
  apply IH. now apply bump_one_or_two.
Qed.

(** Started from 1.0, the accumulator ends at 1.0 or 2.0: the entries
    0.0 and 0.5 of the chart never come out. *)
Lemma maxMultiplier_one_or_two (ats dts : list string) :
  one_or_two (maxMultiplier ats dts).
Proof.
  unfold maxMultiplier.
  assert (Hgen : forall acc, one_or_two acc ->
    one_or_two
      (fold_left
         (fun acc a =>
            fold_left (fun acc d => bump acc (calculateTypeEffectiveness a d))
              dts acc) ats acc)).
  { induction ats as [|a ats IH]; intros acc Hacc; simpl; [exact Hacc|].
    apply IH. now apply inner_loop_one_or_two. }
  apply Hgen. now left.
Qed.

Lemma inner_loop_map (a : string) (ds : list string) (acc : Q) :
  fold_left (fun acc d => bump acc (calculateTypeEffectiveness a d)) ds acc
  = fold_left bump (map (calculateTypeEffectiveness a) ds) acc.
Proof.
  revert acc. induction ds as [|d ds IH]; intros acc; simpl; [reflexivity|].
  apply IH.
Qed.

(** The nested loops visit the cross product in order. *)
Lemma maxMultiplier_pairs (ats dts : list string) :
  maxMultiplier ats dts = fold_left bump (pairMultipliers ats dts) 1%Q.
Proof.
  unfold maxMultiplier, pairMultipliers. generalize 1%Q as acc.
  induction ats as [|a ats IH]; intros acc; simpl; [reflexivity|].
  rewrite fold_left_app, IH, inner_loop_map. reflexivity.
Qed.

Lemma pairMultipliers_values (ats dts : list string) :
  Forall chart_or_default (pairMultipliers ats dts).
Proof.
  unfold pairMultipliers. induction ats as [|a ats IH]; simpl; [constructor|].
  apply Forall_app. split; [|exact IH].
  clear IH. induction dts as [|d dts IH]; simpl; constructor; [|exact IH].
  apply calculateTypeEffectiveness_values.
Qed.

Lemma bump_values (a b : Q) :
  chart_or_default a -> chart_or_default b -> chart_or_default (bump a b).
Proof.
  intros Ha Hb. unfold bump. destruct (float_gt b a); assumption.
Qed.

Lemma bump_floor_commutes (acc x : Q) :
  chart_or_default acc -> chart_or_default x ->
  bump (bump 1%Q acc) x = bump 1%Q (bump acc x).
Proof.
  intros [-> | [-> | [-> | ->]]] [-> | [-> | [-> | ->]]]; vm_compute; reflexivity.
Qed.

Lemma fold_bump_floor (ms : list Q) (acc : Q) :
  chart_or_default acc -> Forall chart_or_default ms ->
  fold_left bump ms (bump 1%Q acc) = bump 1%Q (fold_left bump ms acc).
Proof.
  intros Hacc Hms. revert acc Hacc.
  induction Hms as [|x ms Hx Hms IH]; intros acc Hacc; simpl; [reflexivity|].
  rewrite bump_floor_commutes by assumption.
  apply IH. now apply bump_values.
Qed.

(** What the code computes, for a non-empty cross product: the larger of
    1.0 and the maximum over the pairs. *)
Lemma maxMultiplier_floor (ats dts : list string) (s : Q) :
  spec_maxOverPairs ats dts = Some s ->
  maxMultiplier ats dts = bump 1%Q s.
Proof.
  rewrite maxMultiplier_pairs. unfold spec_maxOverPairs.
  pose proof (pairMultipliers_values ats dts) as Hv.
  destruct (pairMultipliers ats dts) as [|m ms]; [discriminate|].
  intros [= <-]. inversion Hv as [|? ? Hm Hms]; subst. simpl.
  now apply fold_bump_floor.
Qed.

Lemma fold_bump_values (ms : list Q) (acc : Q) :
  chart_or_default acc -> Forall chart_or_default ms ->
  chart_or_default (fold_left bump ms acc).
Proof.
  intros Hacc Hms. revert acc Hacc.
  induction Hms as [|x ms Hx Hms IH]; intros acc Hacc; simpl; [exact Hacc|].
  apply IH. now apply bump_values.
Qed.

(** The code agrees with the maximum over the pairs as soon as one pair
    is at least neutral. *)
Lemma maxMultiplier_agrees_above_one (ats dts : list string) (s : Q) :
  spec_maxOverPairs ats dts = Some s -> (1 <= s)%Q ->
  maxMultiplier ats dts = s.
Proof.
  intros Hs Hle. rewrite (maxMultiplier_floor _ _ _ Hs).
  unfold spec_maxOverPairs in Hs.
  pose proof (pairMultipliers_values ats dts) as Hv.
  destruct (pairMultipliers ats dts) as [|m ms]; [discriminate|].
  injection Hs as <-. inversion Hv as [|? ? Hm Hms]; subst.
  pose proof (fold_bump_values ms m Hm Hms) as Hr.
  destruct Hr as [Hr | [Hr | [Hr | Hr]]]; rewrite Hr in *;
    try reflexivity; exfalso; revert Hle; vm_compute; intros H; now apply H.
Qed.
(** ** Special damage *)

Lemma int_of_float64_integer (z : Z) : int_of_float64 (z # 1) = z.
Proof. unfold int_of_float64. simpl. apply Z.quot_1_r. Qed.

Lemma round_nearest_integer (z : Z) : round_nearest (z # 1) = z.
Proof.
  unfold round_nearest. destruct (Qle_bool 0 (z # 1)).
  - unfold Qfloor, Qplus. cbn [Qnum Qden].
    change (Z.pos (1 * 2)) with 2.
    symmetry. apply Z.div_unique with (r := 1); lia.
  - unfold Qceiling, Qfloor, Qminus, Qplus, Qopp. cbn [Qnum Qden].
    change (Z.pos (1 * 2)) with 2.
    assert (H : (- (z * 2 + - (1) * 1)) / 2 = - z)
      by (symmetry; apply Z.div_unique with (r := 1); lia).
    rewrite H. lia.
Qed.

(** With a multiplier of 1 or 2 the raw special damage is an integer. *)
Lemma specialRaw_integer (pa pd : Pokemon) :
  exists z : Z, specialRaw pa pd = (z # 1)%Q.
Proof.
  unfold specialRaw, float64_of_int, inject_Z.
  destruct (maxMultiplier_one_or_two (Types pa) (Types pd)) as [-> | ->];
    unfold Qminus, Qplus, Qmult, Qopp; simpl; eexists; reflexivity.
Qed.

Lemma calculateSpecialDamage_raw (pokedex : Pokedex) (a d : nat) (pa pd : Pokemon) :
  pokedex !! a = Some pa -> pokedex !! d = Some pd ->
  calculateSpecialDamage pokedex (Some a) (Some d)
  = Some (Z.max 0 (int_of_float64 (specialRaw pa pd))).
Proof.
  intros Ha Hd. unfold calculateSpecialDamage, deref. rewrite Ha, Hd. simpl.
  fold (specialRaw pa pd). f_equal.
  destruct (Z.ltb_spec (int_of_float64 (specialRaw pa pd)) 0); lia.
Qed.

(** X27.  Where the best pair of types is at least neutral, the code
    returns what the formula of the specification gives,
    max(0, round(SpecialAttack * m - SpecialDefense)) with m the maximum
    over the pairs: the multiplier of the code then is that maximum, and
    the difference is an integer, which the truncating conversion leaves
    as it is.  (Stats in the range on which the float64 arithmetic is
    exact.) *)
Theorem special_damage_agrees_above_one (pokedex : Pokedex) (a d : nat)
    (pa pd : Pokemon) (s : Q) :
  pokedex !! a = Some pa -> pokedex !! d = Some pd ->
  stat_ok (SpecialAttack pa) -> stat_ok (SpecialDefense pd) ->
  spec_maxOverPairs (Types pa) (Types pd) = Some s -> (1 <= s)%Q ->
  calculateSpecialDamage pokedex (Some a) (Some d) = spec_specialDamage pa pd.
Proof.
  intros Ha Hd _ _ Hs Hle. rewrite (calculateSpecialDamage_raw _ _ _ _ _ Ha Hd).
  unfold spec_specialDamage. rewrite Hs. cbn [mbind option_bind].
  destruct (specialRaw_integer pa pd) as [z Hz]. rewrite Hz.
  unfold specialRaw in Hz.
  rewrite (maxMultiplier_agrees_above_one _ _ _ Hs Hle) in Hz. rewrite Hz.
  now rewrite int_of_float64_integer, round_nearest_integer.
Qed.

Lemma special_damage_agrees_above_one_witness :
  calculateSpecialDamage examplePokedex (Some 1%nat) (Some 0%nat)
  = spec_specialDamage charmander bulbasaur.
Proof.
  apply (special_damage_agrees_above_one examplePokedex 1 0
           charmander bulbasaur 2);
    [reflexivity | reflexivity | unfold stat_ok; simpl; lia
    | unfold stat_ok; simpl; lia | vm_compute; reflexivity
    | vm_compute; discriminate].
Defined.

(** C2.  Ponyta (Fire, special attack 65) uses its special attack on
    Magikarp (Water, special defense 20).  The only pair of types resolves
    to 0.5, so the formula gives max(0, round(65 * 0.5 - 20)) =
    round(12.5) = 13, and 12 with truncation toward zero.  The code deals
    65 * 1.0 - 20 = 45: its multiplier starts at 1.0 and never goes
    below. *)
Theorem special_damage_fire_vs_water :
  calculateSpecialDamage [ponyta; magikarp] (Some 0%nat) (Some 1%nat) = Some 45
  /\ spec_maxOverPairs (Types ponyta) (Types magikarp) = Some (1 # 2)%Q
  /\ maxMultiplier (Types ponyta) (Types magikarp) = 1%Q
  /\ spec_specialDamage ponyta magikarp = Some 13
  /\ spec_specialDamage_truncated ponyta magikarp = Some 12.
Proof. vm_compute. auto 10. Qed.

(** The same number, evaluated: Fire against Grass/Poison doubles 60. *)
Lemma special_damage_example :
  calculateSpecialDamage examplePokedex (Some 1%nat) (Some 0%nat) = Some 55.
Proof. vm_compute. reflexivity. Qed.

(** ** Normal damage *)

Lemma calculateNormalDamage_value (pokedex : Pokedex) (a d : nat)
    (pa pd : Pokemon) :
  pokedex !! a = Some pa -> pokedex !! d = Some pd ->
  calculateNormalDamage pokedex (Some a) (Some d)
  = Some (Z.max 0 (int_sub (Attack pa) (Defense pd))).
Proof.
  intros Ha Hd. unfold calculateNormalDamage. rewrite Ha, Hd. simpl. f_equal.
  destruct (Z.ltb_spec (int_sub (Attack pa) (Defense pd)) 0); lia.
Qed.

(** Whatever the arguments, a returned normal damage is not negative
    (also when the subtraction wraps around). *)
Lemma calculateNormalDamage_nonneg (pokedex : Pokedex)
    (attacker defender : option nat) (n : Z) :
  calculateNormalDamage pokedex attacker defender = Some n -> 0 <= n.
Proof.
  unfold calculateNormalDamage.
  destruct attacker as [a|], defender as [d|]; simpl;
    try (intros [= <-]; lia).
  destruct (pokedex !! a) as [pa|]; simpl; [|discriminate].
  destruct (pokedex !! d) as [pd|]; simpl; [|discriminate].
  intros [= <-].
  destruct (Z.ltb_spec (int_sub (Attack pa) (Defense pd)) 0); lia.
Qed.

Lemma int_of_float64_negative (q : Q) : (q < 0)%Q -> int_of_float64 q <= 0.
Proof.
  destruct q as [n d]. unfold Qlt, int_of_float64. simpl. intros H.
  assert (Hn : n <= 0) by lia.
  apply Z.quot_le_upper_bound; lia.
Qed.

(** C8.  [calculateNormalDamage] returns max(0, Attack - Defense); both
    damage functions return 0 when their raw subtraction is negative, and
    the damage they return is never negative.  The stats are in the range
    on which neither the [int] subtraction overflows nor the float64
    arithmetic rounds. *)
Theorem damage_never_negative (pokedex : Pokedex) (a d : nat) (pa pd : Pokemon) :
  pokedex !! a = Some pa -> pokedex !! d = Some pd ->
  stat_ok (Attack pa) -> stat_ok (Defense pd) ->
  stat_ok (SpecialAttack pa) -> stat_ok (SpecialDefense pd) ->
  calculateNormalDamage pokedex (Some a) (Some d)
    = Some (Z.max 0 (Attack pa - Defense pd))
  /\ (Attack pa - Defense pd < 0 ->
      calculateNormalDamage pokedex (Some a) (Some d) = Some 0)
  /\ ((specialRaw pa pd < 0)%Q ->
      calculateSpecialDamage pokedex (Some a) (Some d) = Some 0)
  /\ (exists n, calculateNormalDamage pokedex (Some a) (Some d) = Some n
               /\ 0 <= n)
  /\ (exists n, calculateSpecialDamage pokedex (Some a) (Some d) = Some n
               /\ 0 <= n).
Proof.
  intros Ha Hd HA HD _ _.
  pose proof (calculateNormalDamage_value _ _ _ _ _ Ha Hd) as Hn.
  rewrite (stat_ok_sub _ _ HA HD) in Hn.
  pose proof (calculateSpecialDamage_raw _ _ _ _ _ Ha Hd) as Hs.
  repeat split.
  - exact Hn.
  - intros Hneg. rewrite Hn. f_equal. lia.
  - intros Hneg. rewrite Hs. f_equal.
    pose proof (int_of_float64_negative _ Hneg). lia.
  - eexists. split; [exact Hn | lia].
  - eexists. split; [exact Hs | lia].
Qed.

Lemma damage_never_negative_witness :
  calculateNormalDamage examplePokedex (Some 1%nat) (Some 2%nat)
    = Some (Z.max 0 (Attack charmander - Defense squirtle))
  /\ (Attack charmander - Defense squirtle < 0 ->
      calculateNormalDamage examplePokedex (Some 1%nat) (Some 2%nat) = Some 0)
  /\ ((specialRaw charmander squirtle < 0)%Q ->
      calculateSpecialDamage examplePokedex (Some 1%nat) (Some 2%nat) = Some 0)
  /\ (exists n, calculateNormalDamage examplePokedex (Some 1%nat) (Some 2%nat)
                = Some n /\ 0 <= n)
  /\ (exists n, calculateSpecialDamage examplePokedex (Some 1%nat) (Some 2%nat)
                = Some n /\ 0 <= n).
Proof.
  apply (damage_never_negative examplePokedex 1 2 charmander squirtle);
    try reflexivity; unfold stat_ok; simpl; lia.
Defined.

(** Charmander hits Squirtle: 52 - 65 and 60 * 1.0 - 64 are negative. *)
Lemma damage_floor_example :
  calculateNormalDamage examplePokedex (Some 1%nat) (Some 2%nat) = Some 0
  /\ calculateSpecialDamage examplePokedex (Some 1%nat) (Some 2%nat) = Some 0
  /\ calculateNormalDamage examplePokedex (Some 3%nat) (Some 0%nat) = Some 61.
Proof. vm_compute. auto. Qed.

(** C10.  With a nil attacker or a nil defender [calculateNormalDamage]
    returns 0; the other argument is not looked at: the result is the same
    for every store and every value of the other pointer, valid or not. *)
Theorem normal_damage_nil (pokedex : Pokedex) (other : option nat) :
  calculateNormalDamage pokedex None other = Some 0
  /\ calculateNormalDamage pokedex other None = Some 0.
Proof.
  unfold calculateNormalDamage. split; [reflexivity|].
  destruct other; reflexivity.
Qed.

(** [calculateSpecialDamage] has no such guard: a nil argument is
    dereferenced. *)
Lemma special_damage_nil (pokedex : Pokedex) (other : option nat) :
  calculateSpecialDamage pokedex None other = None
  /\ calculateSpecialDamage pokedex other None = None.
Proof.
  unfold calculateSpecialDamage, deref. split; [reflexivity|].
  destruct other as [i|]; simpl; [|reflexivity].
  destruct (pokedex !! i); reflexivity.
Qed.

(** C1.  Fire against Water: the only pair resolves to 0.5, which is the
    maximum over the cross product, but the accumulator of
    [calculateSpecialDamage] starts at 1.0 and stays there; Arcanine's
    special attack on Squirtle deals 100 * 1.0 - 64 = 36, where the
    maximum over the pairs gives 100 * 0.5 - 64 < 0, that is 0. *)
Theorem special_multiplier_fire_vs_water :
  pairMultipliers ["Fire"%string] ["Water"%string] = [(1 # 2)%Q]
  /\ spec_maxOverPairs ["Fire"%string] ["Water"%string] = Some (1 # 2)%Q
  /\ maxMultiplier ["Fire"%string] ["Water"%string] = 1%Q
  /\ calculateSpecialDamage examplePokedex (Some 3%nat) (Some 2%nat) = Some 36
  /\ Z.max 0 (round_nearest
               (float64_of_int (SpecialAttack arcanine) * (1 # 2)
                - float64_of_int (SpecialDefense squirtle))%Q) = 0.
Proof. vm_compute. auto 10. Qed.

(** ** The battle loop *)

Lemma exampleStart_eq : exampleStart = Some exampleBattle.
Proof. vm_compute. reflexivity. Qed.

Lemma exampleBattle_hit :
  battleTurn exampleBattle 1 (Some 1) = Some (Hit exampleBattleAfterHit 0 61 false).
Proof. vm_compute. reflexivity. Qed.

Lemma calculateSpecialDamage_nonneg (pokedex : Pokedex)
    (attacker defender : option nat) (n : Z) :
  calculateSpecialDamage pokedex attacker defender = Some n -> 0 <= n.
Proof.
  unfold calculateSpecialDamage.
  destruct (deref pokedex attacker) as [pa|]; simpl; [|discriminate].
  destruct (deref pokedex defender) as [pd|]; simpl; [|discriminate].
  intros [= <-]. case_match; [lia|]. apply Z.ltb_ge. assumption.
Qed.

(** Inversion of a pass of the battle loop that lands a hit. *)
Lemma battleTurn_hit_inv (b : Battle) (conn : nat) (input : option Z)
    (b' : Battle) (defender : nat) (damage : Z) (won : bool) :
  battleTurn b conn input = Some (Hit b' defender damage won) ->
  exists (pd : Pokemon) (oconn : nat) (opponent : Client) (rest : list nat),
    b_pokedex b !! defender = Some pd
    /\ findOpponent (clients b) conn = Some (oconn, opponent)
    /\ team opponent = defender :: rest
    /\ 0 <= damage
    /\ b_pokedex b'
       = <[defender := set_HP pd (int_sub (HP pd) damage)]> (b_pokedex b)
    /\ team <$> clients b' !! oconn
       = Some (if int_sub (HP pd) damage <=? 0 then rest else defender :: rest)
    /\ won = (int_sub (HP pd) damage <=? 0) && bool_decide (rest = []).
Proof.
  unfold battleTurn. intros H.
  destruct (clients b !! conn) as [client|]; [|discriminate].
  cbn -[calculateNormalDamage calculateSpecialDamage int_sub] in H.
  destruct (isActive client); [|discriminate].
  destruct (team client) as [|attacker ?]; [discriminate|].
  destruct input as [attackChoice|]; [|discriminate].
  destruct ((attackChoice <? 1) || (2 <? attackChoice)); [discriminate|].
  destruct (findOpponent (clients b) conn) as [[oconn opponent]|] eqn:Hopp;
    [|discriminate].
  destruct (team opponent) as [|d rest] eqn:Hteam; [discriminate|].
  match type of H with
  | context [mbind _ ?e] => destruct e as [dmg|] eqn:Hdmg
  end; cbn -[calculateNormalDamage calculateSpecialDamage int_sub] in H;
    [|discriminate].
  assert (Hnn : 0 <= dmg).
  { destruct (attackChoice =? 1).
    - eapply calculateNormalDamage_nonneg; eassumption.
    - eapply calculateSpecialDamage_nonneg; eassumption. }
  destruct (b_pokedex b !! d) as [pd|] eqn:Hpd;
    cbn -[calculateNormalDamage calculateSpecialDamage int_sub] in H;
    [|discriminate].
  exists pd, oconn, opponent, rest.
  destruct (int_sub (HP pd) dmg <=? 0) eqn:Hhp.
  - destruct rest as [|r rest'];
      injection H as <- <- <- <-; cbn [b_pokedex clients];
      rewrite lookup_insert_eq, Hhp; split_and!; done.
  - injection H as <- <- <- <-. cbn [b_pokedex clients].
    rewrite lookup_insert_eq, Hhp. split_and!; try done.
    simpl. now rewrite Hteam.
Qed.

(** C4, as the code has it.  A hit subtracts the damage, which is never
    negative, from the HP of the head of the opponent's team, without a
    clamp: the new HP is the old HP minus the damage (in [int]
    arithmetic) and can be negative.  A creature whose HP is then zero or
    less leaves its owner's team; the battle is won when that team is
    empty. *)
Theorem hit_subtracts_damage (b : Battle) (conn : nat) (input : option Z)
    (b' : Battle) (defender : nat) (damage : Z) (won : bool) :
  battleTurn b conn input = Some (Hit b' defender damage won) ->
  exists (pd : Pokemon) (oconn : nat) (opponent : Client) (rest : list nat),
    b_pokedex b !! defender = Some pd
    /\ findOpponent (clients b) conn = Some (oconn, opponent)
    /\ team opponent = defender :: rest
    /\ 0 <= damage
    /\ b_pokedex b' !! defender = Some (set_HP pd (int_sub (HP pd) damage))
    /\ team <$> clients b' !! oconn
       = Some (if int_sub (HP pd) damage <=? 0 then rest else defender :: rest)
    /\ won = (int_sub (HP pd) damage <=? 0) && bool_decide (rest = []).
Proof.
  intros H.
  destruct (battleTurn_hit_inv _ _ _ _ _ _ _ H)
    as (pd & oconn & opponent & rest & Hpd & Hopp & Hteam & Hnn & Hb' & Ht & Hw).
  exists pd, oconn, opponent, rest. split_and!; try assumption.
  rewrite Hb'. apply list_lookup_insert_eq.
  eapply lookup_lt_Some. eassumption.
Qed.

Lemma hit_subtracts_damage_witness :
  exists (pd : Pokemon) (oconn : nat) (opponent : Client) (rest : list nat),
    b_pokedex exampleBattle !! 0%nat = Some pd
    /\ findOpponent (clients exampleBattle) 1 = Some (oconn, opponent)
    /\ team opponent = 0%nat :: rest
    /\ 0 <= 61
    /\ b_pokedex exampleBattleAfterHit !! 0%nat
       = Some (set_HP pd (int_sub (HP pd) 61))
    /\ team <$> clients exampleBattleAfterHit !! oconn
       = Some (if int_sub (HP pd) 61 <=? 0 then rest else 0%nat :: rest)
    /\ false = (int_sub (HP pd) 61 <=? 0) && bool_decide (rest = []).
Proof.
  apply (hit_subtracts_damage exampleBattle 1 (Some 1) exampleBattleAfterHit
           0 61 false).
  vm_compute. reflexivity.
Defined.

(** C4, as stated, fails: Arcanine's normal attack (110 - 49 = 61) takes
    Bulbasaur from 45 HP to -16. *)
Theorem hp_not_clamped : ~ hp_clamped_at_zero.
Proof.
  intros Hclaim.
  assert (Hreach : reachable exampleBattle)
    by (eapply reach_start; exact exampleStart_eq).
  specialize (Hclaim exampleBattle 1%nat (Some 1) exampleBattleAfterHit 0%nat 61
                false (set_HP bulbasaur (-16)) Hreach exampleBattle_hit
                eq_refl).
  simpl in Hclaim. lia.
Qed.

#[local] Instance same_template_refl : Reflexive same_template.
Proof. intros p. unfold same_template. tauto. Qed.

#[local] Instance same_template_trans : Transitive same_template.
Proof.
  intros p q r Hpq Hqr. unfold same_template in *.
  destruct Hpq as (?&?&?&?&?&?&?&?&?), Hqr as (?&?&?&?&?&?&?&?&?).
  split_and!; congruence.
Qed.

Lemma same_template_set_HP (p : Pokemon) (hp : Z) : same_template p (set_HP p hp).
Proof. unfold same_template. simpl. tauto. Qed.

Lemma same_template_set_Level_EV (p : Pokemon) (lvl : Z) (ev : Q) :
  same_template p (set_Level_EV p lvl ev).
Proof. unfold same_template. simpl. tauto. Qed.

Lemma registry_refl (r : Pokedex) : Forall2 same_template r r.
Proof. induction r; constructor; [reflexivity | assumption]. Qed.

Lemma registry_trans (r1 r2 r3 : Pokedex) :
  Forall2 same_template r1 r2 -> Forall2 same_template r2 r3 ->
  Forall2 same_template r1 r3.
Proof.
  intros H12. revert r3. induction H12 as [|p q r1 r2 Hpq H12 IH];
    intros r3 H23; inversion H23; subst; constructor.
  - etransitivity; eassumption.
  - now apply IH.
Qed.

Lemma registry_update (r : Pokedex) (i : nat) (p q : Pokemon) :
  r !! i = Some p -> same_template p q ->
  Forall2 same_template r (<[i := q]> r).
Proof.
  revert i. induction r as [|x r IH]; intros [|i] Hi Hpq; simpl in *;
    try discriminate.
  - injection Hi as ->. constructor; [assumption | apply registry_refl].
  - constructor; [reflexivity | now apply IH].
Qed.

Lemma spawnOne_registry (d : SpawnDraw) (pw pw' : Pokeworld) :
  spawnOne d pw = Some pw' -> Forall2 same_template (pokedex pw) (pokedex pw').
Proof.
  unfold spawnOne. intros H.
  destruct (Intn worldSizeX (drawX d)) as [x|]; [|discriminate].
  destruct (Intn worldSizeY (drawY d)) as [y|]; [|discriminate].
  cbn [mbind option_bind] in H.
  destruct (grid pw !! (x, y)).
  - injection H as <-. apply registry_refl.
  - destruct (Intn _ (drawIndex d)) as [idx|]; [|discriminate].
    destruct (Intn 100 (drawLevel d)) as [lvl|]; [|discriminate].
    cbn [mbind option_bind] in H.
    destruct (pokedex pw !! Z.to_nat idx) as [entry|] eqn:He; [|discriminate].
    injection H as <-. cbn [pokedex].
    eapply registry_update; [eassumption | apply same_template_set_Level_EV].
Qed.

Lemma spawnLoop_registry (rand : nat -> SpawnDraw) (n i : nat) (pw pw' : Pokeworld) :
  spawnLoop rand i n pw = Some pw' ->
  Forall2 same_template (pokedex pw) (pokedex pw').
Proof.
  revert i pw. induction n as [|n IH]; intros i pw H; simpl in H.
  - injection H as <-. apply registry_refl.
  - destruct (TotalPokemon pw <? 50).
    + destruct (spawnOne (rand i) pw) as [pw1|] eqn:H1; [|discriminate].
      cbn [mbind option_bind] in H.
      eapply registry_trans; [eapply spawnOne_registry; eassumption|].
      eapply IH; eassumption.
    + injection H as <-. apply registry_refl.
Qed.

Lemma movePlayer_fields (input : string) (c : Client) :
  team (movePlayer input c) = team c
  /\ isActive (movePlayer input c) = isActive c
  /\ AutoMode (movePlayer input c) = AutoMode c
  /\ AutoUntil (movePlayer input c) = AutoUntil c.
Proof.
  unfold movePlayer. repeat case_decide; repeat case_match; done.
Qed.


(** A pass of the session loop: the state in which it blocks. *)
Lemma handlePlayer_blocks (conn : nat) (input : string) (pw : Pokeworld)
    (client : Client) :
  players pw !! conn = Some client ->
  handlePlayer conn input pw
  = Blocks (mkPokeworld (grid pw)
              (<[conn := movePlayer input client]> (players pw))
              (pokedex pw) (despawnTimers pw) (TotalPokemon pw) (timers pw)).
Proof. intros H. unfold handlePlayer. now rewrite H. Qed.

Lemma handlePlayer_pokedex (conn : nat) (input : string) (pw pw' : Pokeworld) :
  handlePlayer conn input pw = Blocks pw' -> pokedex pw' = pokedex pw.
Proof.
  unfold handlePlayer. destruct (players pw !! conn) as [client|];
    [|discriminate].
  cbn [orPanic]. now intros [= <-].
Qed.

Lemma timerElapses_pokedex (id : nat) (pw : Pokeworld) :
  pokedex (timerElapses id pw) = pokedex pw.
Proof.
  unfold timerElapses. destruct (timers pw !! id) as [t|]; [|reflexivity].
  destruct (tPending t); [|reflexivity].
  unfold despawnCallback. case_decide; reflexivity.
Qed.

Lemma registry_step_same_template (r r' : Pokedex) :
  registry_step r r' -> Forall2 same_template r r'.
Proof.
  intros Hstep. destruct Hstep as [rand n pw pw' H | r ? ? ? ? _
    | b conn input b' d dmg won H | conn input pw pw' H | id pw].
  - eapply spawnLoop_registry. exact H.
  - apply registry_refl.
  - destruct (battleTurn_hit_inv _ _ _ _ _ _ _ H)
      as (pd & _ & _ & _ & Hpd & _ & _ & _ & Hb' & _).
    rewrite Hb'. eapply registry_update; [eassumption|].
    apply same_template_set_HP.
  - rewrite (handlePlayer_pokedex _ _ _ _ H). apply registry_refl.
  - rewrite timerElapses_pokedex. apply registry_refl.
Qed.

(** C3, as the code has it.  After any sequence of spawn cycles, team
    selections, battle hits, session passes and despawns, the registry
    has the same entries with the same name, types, base experience,
    Attack, Defense, Speed, SpecialAttack, SpecialDefense and accumulated
    experience.  (Instances are pointers into the registry: a spawn
    writes Level and EV of the drawn entry and a hit writes HP of the
    struck entry.) *)
Theorem registry_templates_preserved (r r' : Pokedex) :
  rtc registry_step r r' -> Forall2 same_template r r'.
Proof.
  induction 1 as [r | r1 r2 r3 Hstep _ IH].
  - apply registry_refl.
  - eapply registry_trans; [|exact IH].
    now apply registry_step_same_template.
Qed.

Lemma emptyWorld_spawn :
  spawnPokemon rowDraw 1 emptyWorld
  = Some (mkPokeworld {[ (0, 0) := 0%nat ]} ∅
            [set_Level_EV bulbasaur 42 (10 # 16); charmander; squirtle; arcanine]
            {[ 0%nat := 0%nat ]} 0 [mkTimer 0 0 0 true]).
Proof. vm_compute. reflexivity. Qed.

Lemma registry_templates_preserved_witness :
  Forall2 same_template examplePokedex
    [set_Level_EV bulbasaur 42 (10 # 16); charmander; squirtle; arcanine].
Proof.
  apply (registry_templates_preserved examplePokedex).
  apply rtc_once.
  exact (step_spawn rowDraw 1 emptyWorld _ emptyWorld_spawn).
Defined.

(** C3, as stated, fails: one spawn into the empty world turns the level
    of the registry entry of Bulbasaur from 1 into 42. *)
Theorem registry_is_mutated : ~ registry_never_mutated.
Proof.
  intros Hclaim.
  specialize (Hclaim _ _ (step_spawn rowDraw 1 emptyWorld _ emptyWorld_spawn)).
  discriminate Hclaim.
Qed.

(** A hit mutates the registry as well: the HP of the entry. *)
Lemma registry_is_mutated_by_hit :
  b_pokedex exampleBattle !! 0%nat = Some bulbasaur
  /\ b_pokedex exampleBattleAfterHit !! 0%nat = Some (set_HP bulbasaur (-16))
  /\ registry_step (b_pokedex exampleBattle) (b_pokedex exampleBattleAfterHit).
Proof.
  split_and!; [reflexivity | reflexivity |].
  exact (step_turn _ _ _ _ _ _ _ exampleBattle_hit).
Qed.

(** ** Spawning *)

Lemma spawnOne_TotalPokemon (d : SpawnDraw) (pw pw' : Pokeworld) :
  spawnOne d pw = Some pw' -> TotalPokemon pw' = TotalPokemon pw.
Proof.
  unfold spawnOne. intros H.
  destruct (Intn worldSizeX (drawX d)) as [x|]; [|discriminate].
  destruct (Intn worldSizeY (drawY d)) as [y|]; [|discriminate].
  cbn [mbind option_bind] in H.
  destruct (grid pw !! (x, y)).
  - now injection H as <-.
  - destruct (Intn _ (drawIndex d)) as [idx|]; [|discriminate].
    destruct (Intn 100 (drawLevel d)) as [lvl|]; [|discriminate].
    cbn [mbind option_bind] in H.
    destruct (pokedex pw !! Z.to_nat idx) as [entry|]; [|discriminate].
    now injection H as <-.
Qed.

Lemma spawnOne_size (d : SpawnDraw) (pw pw' : Pokeworld) :
  spawnOne d pw = Some pw' ->
  (liveCreatures pw <= liveCreatures pw' <= S (liveCreatures pw))%nat.
Proof.
  unfold spawnOne, liveCreatures. intros H.
  destruct (Intn worldSizeX (drawX d)) as [x|]; [|discriminate].
  destruct (Intn worldSizeY (drawY d)) as [y|]; [|discriminate].
  cbn [mbind option_bind] in H.
  destruct (grid pw !! (x, y)) eqn:Hcell.
  - injection H as <-. lia.
  - destruct (Intn _ (drawIndex d)) as [idx|]; [|discriminate].
    destruct (Intn 100 (drawLevel d)) as [lvl|]; [|discriminate].
    cbn [mbind option_bind] in H.
    destruct (pokedex pw !! Z.to_nat idx) as [entry|]; [|discriminate].
    injection H as <-. cbn [grid].
    rewrite map_size_insert_None by assumption. lia.
Qed.

(** The spawn loop never writes the counter that its condition reads. *)
Lemma spawnLoop_TotalPokemon (rand : nat -> SpawnDraw) (n i : nat)
    (pw pw' : Pokeworld) :
  spawnLoop rand i n pw = Some pw' -> TotalPokemon pw' = TotalPokemon pw.
Proof.
  revert i pw. induction n as [|n IH]; intros i pw H; simpl in H.
  - now injection H as <-.
  - destruct (TotalPokemon pw <? 50).
    + destruct (spawnOne (rand i) pw) as [pw1|] eqn:H1; [|discriminate].
      cbn [mbind option_bind] in H.
      rewrite (IH _ _ H). eapply spawnOne_TotalPokemon; eassumption.
    + now injection H as <-.
Qed.

Lemma spawnLoop_size (rand : nat -> SpawnDraw) (n i : nat) (pw pw' : Pokeworld) :
  spawnLoop rand i n pw = Some pw' ->
  (liveCreatures pw <= liveCreatures pw' <= liveCreatures pw + n)%nat.
Proof.
  revert i pw. induction n as [|n IH]; intros i pw H; simpl in H.
  - injection H as <-. lia.
  - destruct (TotalPokemon pw <? 50).
    + destruct (spawnOne (rand i) pw) as [pw1|] eqn:H1; [|discriminate].
      cbn [mbind option_bind] in H.
      pose proof (spawnOne_size _ _ _ H1). pose proof (IH _ _ H). lia.
    + injection H as <-. lia.
Qed.

(** One call places at most [numPokemon] new instances. *)
Lemma spawnPokemon_at_most (rand : nat -> SpawnDraw) (numPokemon : Z)
    (pw pw' : Pokeworld) :
  spawnPokemon rand numPokemon pw = Some pw' ->
  (liveCreatures pw' <= liveCreatures pw + Z.to_nat numPokemon)%nat.
Proof. intros H. apply spawnLoop_size in H. lia. Qed.

(** The loop condition stops the spawning once the counter is at 50. *)
Lemma spawnPokemon_counter_full (rand : nat -> SpawnDraw) (numPokemon : Z)
    (pw : Pokeworld) :
  50 <= TotalPokemon pw -> spawnPokemon rand numPokemon pw = Some pw.
Proof.
  intros H. unfold spawnPokemon. destruct (Z.to_nat numPokemon); simpl;
    [reflexivity|].
  destruct (Z.ltb_spec (TotalPokemon pw) 50); [lia | reflexivity].
Qed.

(** C6.  Two spawn cycles on a fresh world, every draw hitting an empty
    cell: the first cycle places 50 creatures and leaves the counter at 0,
    so the second cycle places 50 more; 100 creatures are live, over the
    cap of 50. *)
Theorem spawn_cap_exceeded :
  liveCreatures <$> firstCycle = Some 50%nat
  /\ TotalPokemon <$> firstCycle = Some 0
  /\ liveCreatures <$> secondCycle = Some 100%nat
  /\ TotalPokemon <$> secondCycle = Some 0.
Proof. vm_compute. auto. Qed.

(** ** Despawn timers and capture attempts *)


(** A stopped timer does nothing when its duration is over. *)
Lemma timerElapses_stopped (id : nat) (t : Timer) (pw : Pokeworld) :
  timers pw !! id = Some t -> tPending t = false -> timerElapses id pw = pw.
Proof. intros Ht Hp. unfold timerElapses. now rewrite Ht, Hp. Qed.




(** The creature of the attempt, evaluated: the Bulbasaur of (1, 1) is on
    its cell and its timer is pending, before and after the pass. *)
Lemma sessionEncounter_eq :
  grid sessionEncounter !! (1, 1) = Some 0%nat
  /\ timers sessionEncounter !! 0%nat = Some (mkTimer 1 1 0 true)
  /\ handlePlayer 7 "down" sessionEncounter
     = Blocks (mkPokeworld (grid sessionEncounter)
                 {[ 7%nat := mkClient [] false 1 1 false 0 ]}
                 (pokedex sessionEncounter) (despawnTimers sessionEncounter)
                 0 (timers sessionEncounter)).
Proof. vm_compute. auto. Qed.

(** ** The team bound *)




(** ** Movement *)

Lemma inWorld_bounds (w : PlayerWorld.World) (x y : Z) :
  PlayerWorld.inWorld w x y = true <->
  0 <= x < PlayerWorld.worldSize w /\ 0 <= y < PlayerWorld.worldSize w.
Proof. unfold PlayerWorld.inWorld. rewrite !andb_true_iff. lia. Qed.

Lemma inGrid_bounds (x y : Z) :
  inGrid x y = true <-> 0 <= x < worldSizeX /\ 0 <= y < worldSizeY.
Proof. unfold inGrid. rewrite !andb_true_iff. lia. Qed.

Lemma directions_cases (direction : string) :
  direction ∈ directions ->
  direction = "up"%string \/ direction = "down"%string
  \/ direction = "left"%string \/ direction = "right"%string.
Proof.
  unfold directions. rewrite !elem_of_cons, elem_of_nil. tauto.
Qed.

(** Inside the world, one step backward in [int] arithmetic and Go's [%]
    is the step of the specification. *)
Lemma step_back (size v : Z) :
  0 <= v < size -> 2 * size <= max_int ->
  int_rem (int_add (int_sub v 1) size) size = Some ((v - 1 + size) mod size).
Proof.
  intros Hv Hs. unfold int_rem, int_add, int_sub, max_int in *.
  rewrite (wrap_id (v - 1)) by (unfold min_int, max_int; lia).
  rewrite (wrap_id (v - 1 + size)) by (unfold min_int, max_int; lia).
  case_decide; [lia|]. f_equal. apply Z.rem_mod_nonneg; lia.
Qed.

Lemma step_forward (size v : Z) :
  0 <= v < size -> 2 * size <= max_int ->
  int_rem (int_add v 1) size = Some ((v + 1 + size) mod size).
Proof.
  intros Hv Hs. unfold int_rem, int_add, max_int in *.
  rewrite (wrap_id (v + 1)) by (unfold min_int, max_int; lia).
  case_decide; [lia|]. f_equal.
  rewrite Z.rem_mod_nonneg by lia.
  replace (v + 1 + size) with (v + 1 + 1 * size) by lia.
  now rewrite Z.mod_add by lia.
Qed.

Lemma destination_wrapStep (w : PlayerWorld.World) (p : PlayerWorld.Player)
    (direction : string) :
  PlayerWorld.inWorld w (PlayerWorld.X p) (PlayerWorld.Y p) = true ->
  2 * PlayerWorld.worldSize w <= max_int ->
  direction ∈ directions ->
  PlayerWorld.destination w p direction
  = Some (Some (wrapStep (PlayerWorld.worldSize w) direction
                  (PlayerWorld.X p, PlayerWorld.Y p))).
Proof.
  intros Hin Hs Hd. apply inWorld_bounds in Hin as [Hx Hy].
  unfold PlayerWorld.destination, wrapStep.
  destruct (directions_cases _ Hd) as [-> | [-> | [-> | ->]]]; simpl.
  - now rewrite step_back.
  - now rewrite step_forward.
  - now rewrite step_back.
  - now rewrite step_forward.
Qed.

Lemma wrapStep_inWorld (w : PlayerWorld.World) (direction : string) (x y : Z) :
  PlayerWorld.inWorld w x y = true ->
  let dest := wrapStep (PlayerWorld.worldSize w) direction (x, y) in
  PlayerWorld.inWorld w dest.1 dest.2 = true.
Proof.
  intros Hin. apply inWorld_bounds in Hin as [Hx Hy].
  unfold wrapStep.
  repeat case_decide; cbn [fst snd]; apply inWorld_bounds;
    repeat split; try lia;
    match goal with
    | |- context [?a mod ?b] => pose proof (Z.mod_pos_bound a b ltac:(lia))
    end; lia.
Qed.

Lemma cellAt_inWorld (w : PlayerWorld.World) (x y : Z) :
  PlayerWorld.inWorld w x y = true ->
  PlayerWorld.cellAt w x y = Some (PlayerWorld.world w !! (x, y)).
Proof. intros H. unfold PlayerWorld.cellAt. now rewrite H. Qed.

(** [handleEncounter] leaves the position of the player alone. *)
(** A move onto a cell that holds a player without Pokémon: the call
    returns with the world as it was. *)
Lemma handlePlayerMovement_blocked (w : PlayerWorld.World) (player : nat)
    (p : PlayerWorld.Player) (direction : string) :
  world_ok w ->
  PlayerWorld.heap w !! player = Some p ->
  PlayerWorld.inWorld w (PlayerWorld.X p) (PlayerWorld.Y p) = true ->
  2 * PlayerWorld.worldSize w <= max_int ->
  direction ∈ directions ->
  blocked w (wrapStep (PlayerWorld.worldSize w) direction
               (PlayerWorld.X p, PlayerWorld.Y p)) = true ->
  PlayerWorld.handlePlayerMovement player direction w = Returns w.
Proof.
  intros Hok Hp Hin Hs Hd Hb.
  pose proof (wrapStep_inWorld w direction _ _ Hin) as Hdest.
  cbn zeta in Hdest.
  destruct (wrapStep _ _ _) as [x y] eqn:Edest. cbn [fst snd] in Hdest.
  unfold PlayerWorld.handlePlayerMovement.
  rewrite Hp. cbn [orPanic].
  rewrite (destination_wrapStep _ _ _ Hin Hs Hd), Edest. cbn [orPanic].
  rewrite (cellAt_inWorld _ _ _ Hdest). cbn [orPanic].
  unfold blocked in Hb.
  destruct (PlayerWorld.world w !! (x, y)) as [other|] eqn:Hcell;
    [|discriminate].
  destruct (Hok _ _ Hcell) as [o Ho]. rewrite Ho in Hb |- *.
  cbn [mbind option_bind orPanic]. now rewrite Hb.
Qed.

(** An unblocked move: the world after the move, and whether the call
    returns. *)
Lemma handlePlayerMovement_unblocked (w : PlayerWorld.World) (player : nat)
    (p : PlayerWorld.Player) (direction : string) (x y : Z) :
  world_ok w ->
  PlayerWorld.heap w !! player = Some p ->
  PlayerWorld.inWorld w (PlayerWorld.X p) (PlayerWorld.Y p) = true ->
  2 * PlayerWorld.worldSize w <= max_int ->
  direction ∈ directions ->
  wrapStep (PlayerWorld.worldSize w) direction (PlayerWorld.X p, PlayerWorld.Y p)
  = (x, y) ->
  blocked w (x, y) = false ->
  let w1 :=
    PlayerWorld.mkWorld (PlayerWorld.worldSize w)
      (<[(x, y) := player]>
         (delete (PlayerWorld.X p, PlayerWorld.Y p) (PlayerWorld.world w)))
      (<[player := PlayerWorld.set_pos p x y]> (PlayerWorld.heap w)) in
  PlayerWorld.handlePlayerMovement player direction w
  = if bool_decide (size (PlayerWorld.Pokemons p) = 0%nat) then Returns w1
    else Blocks w1.
Proof.
  intros Hok Hp Hin Hs Hd Edest Hb w1.
  pose proof (wrapStep_inWorld w direction _ _ Hin) as Hdest.
  cbn zeta in Hdest. rewrite Edest in Hdest. cbn [fst snd] in Hdest.
  unfold PlayerWorld.handlePlayerMovement.
  rewrite Hp. cbn [orPanic].
  rewrite (destination_wrapStep _ _ _ Hin Hs Hd), Edest. cbn [orPanic].
  rewrite (cellAt_inWorld _ _ _ Hdest). cbn [orPanic].
  rewrite (cellAt_inWorld _ _ _ Hin).
  unfold blocked in Hb.
  destruct (PlayerWorld.world w !! (x, y)) as [other|] eqn:Hcell.
  - destruct (Hok _ _ Hcell) as [o Ho]. rewrite Ho in Hb |- *.
    cbn [mbind option_bind orPanic]. rewrite Hb. reflexivity.
  - reflexivity.
Qed.

Lemma movePlayer_clampStep (direction : string) (c : Client) :
  inGrid (X c) (Y c) = true ->
  direction ∈ directions ->
  (X (movePlayer direction c), Y (movePlayer direction c))
  = clampStep direction (X c, Y c).
Proof.
  intros Hin Hd. apply inGrid_bounds in Hin as [Hx Hy].
  unfold worldSizeX, worldSizeY in *.
  unfold movePlayer, clampStep, worldSizeX, worldSizeY, int_sub, int_add.
  destruct (directions_cases _ Hd) as [-> | [-> | [-> | ->]]]; simpl;
    match goal with
    | |- context [?a <? ?b] => destruct (Z.ltb_spec a b)
    end; cbn [X Y set_pos];
    rewrite ?wrap_id by (unfold min_int, max_int; lia);
    f_equal; lia.
Qed.

Lemma onePlayer_ok : world_ok onePlayer.
Proof.
  intros cell q Hc. unfold onePlayer in *. cbn in *.
  apply lookup_insert_Some in Hc as [[_ <-] | [_ Hc]].
  - now rewrite lookup_insert_eq.
  - now rewrite lookup_empty in Hc.
Qed.

(** C5, as the code has it.  For each of the four directions and every
    position inside the world, [handlePlayerMovement] of server.go moves
    the player to the neighbouring cell with wraparound modulo the world
    size, unless that cell holds a player who owns no Pokémon: then it
    returns with the world, and so the position, unchanged.  After an
    unblocked move the call returns if the player owns no Pokémon; if the
    player owns at least one, the call blocks for ever, the position
    already updated.  The session loop [handlePlayer] of the draft moves
    by one cell without wraparound and stays where it is at an edge. *)
Theorem move_wraps_unless_blocked (w : PlayerWorld.World) (player : nat)
    (p : PlayerWorld.Player) (direction : string) (c : Client) :
  world_ok w ->
  PlayerWorld.heap w !! player = Some p ->
  PlayerWorld.inWorld w (PlayerWorld.X p) (PlayerWorld.Y p) = true ->
  2 * PlayerWorld.worldSize w <= max_int ->
  direction ∈ directions ->
  inGrid (X c) (Y c) = true ->
  let dest := wrapStep (PlayerWorld.worldSize w) direction
                (PlayerWorld.X p, PlayerWorld.Y p) in
  (if blocked w dest
   then PlayerWorld.handlePlayerMovement player direction w = Returns w
   else exists w' : PlayerWorld.World,
          PlayerWorld.handlePlayerMovement player direction w
          = (if bool_decide (size (PlayerWorld.Pokemons p) = 0%nat)
             then Returns w' else Blocks w')
          /\ PlayerWorld.position w' player = Some dest)
  /\ (X (movePlayer direction c), Y (movePlayer direction c))
     = clampStep direction (X c, Y c).
Proof.
  intros Hok Hp Hin Hs Hd Hc dest. split.
  - destruct (blocked w dest) eqn:Hb.
    + now apply handlePlayerMovement_blocked with (p := p).
    + destruct dest as [x y] eqn:Edest. subst dest.
      rewrite (handlePlayerMovement_unblocked _ _ _ _ _ _
                 Hok Hp Hin Hs Hd Edest Hb).
      eexists. split; [reflexivity|].
      unfold PlayerWorld.position. cbn [PlayerWorld.heap].
      now rewrite lookup_insert_eq.
  - now apply movePlayer_clampStep.
Qed.

Lemma move_wraps_unless_blocked_witness :
  (if blocked onePlayer (wrapStep 3 "up" (0, 0))
   then PlayerWorld.handlePlayerMovement 1 "up" onePlayer = Returns onePlayer
   else exists w' : PlayerWorld.World,
          PlayerWorld.handlePlayerMovement 1 "up" onePlayer
          = (if bool_decide
                  (size (PlayerWorld.Pokemons (PlayerWorld.mkPlayer 1 0 0 ∅))
                   = 0%nat)
             then Returns w' else Blocks w')
          /\ PlayerWorld.position w' 1 = Some (wrapStep 3 "up" (0, 0)))
  /\ (X (movePlayer "up" (mkClient [] false 4 0 false 0)),
      Y (movePlayer "up" (mkClient [] false 4 0 false 0)))
     = clampStep "up" (4, 0).
Proof.
  apply (move_wraps_unless_blocked onePlayer 1 (PlayerWorld.mkPlayer 1 0 0 ∅)
           "up" (mkClient [] false 4 0 false 0)).
  - exact onePlayer_ok.
  - reflexivity.
  - reflexivity.
  - vm_compute. discriminate.
  - vm_compute. left.
  - reflexivity.
Defined.

(** Unblocked, moving up from row 0 lands on the last row. *)
Lemma up_from_row_zero :
  exists w' : PlayerWorld.World,
    PlayerWorld.handlePlayerMovement 1 "up" onePlayer = Returns w'
    /\ PlayerWorld.position w' 1 = Some (0, 2).
Proof. eexists. split; vm_compute; reflexivity. Qed.

(** A player who owns a Pokémon: the move is made, and the call blocks. *)
Lemma up_from_row_zero_trainer :
  exists w' : PlayerWorld.World,
    PlayerWorld.handlePlayerMovement 1 "up" trainerWorld = Blocks w'
    /\ PlayerWorld.position w' 1 = Some (0, 2).
Proof. eexists. split; vm_compute; reflexivity. Qed.

(** In the draft, moving up from row 0 stays on row 0. *)
Lemma handlePlayer_up_from_row_zero :
  let c := movePlayer "up" (mkClient [] false 4 0 false 0) in
  (X c, Y c) = (4, 0).
Proof. vm_compute. reflexivity. Qed.

(** C5, as stated, fails: player 1 at (0, 0) moves up; the last row of the
    column holds player 2, who owns no Pokémon, and player 1 stays at
    (0, 0). *)
Theorem move_blocked_by_player : ~ move_always_wraps.
Proof.
  intros Hclaim.
  assert (Hok : world_ok twoPlayers).
  { intros cell q Hc. unfold twoPlayers in *. cbn in *.
    apply lookup_insert_Some in Hc as [[_ <-] | [_ Hc]];
      [now rewrite lookup_insert_eq|].
    apply lookup_insert_Some in Hc as [[_ <-] | [_ Hc]];
      [|now rewrite lookup_empty in Hc].
    rewrite lookup_insert_ne by lia. now rewrite lookup_insert_eq. }
  destruct (Hclaim twoPlayers 1%nat (PlayerWorld.mkPlayer 1 0 0 ∅) "up"%string
              Hok eq_refl eq_refl)
    as (w' & Hrun & Hpos).
  - vm_compute. discriminate.
  - vm_compute. left.
  - assert (E : PlayerWorld.handlePlayerMovement 1 "up" twoPlayers
                = Returns twoPlayers) by (vm_compute; reflexivity).
    rewrite E in Hrun. injection Hrun as <-.
    vm_compute in Hpos. discriminate Hpos.
Qed.

(** * Further properties *)

(** ** Type chart *)

(** X1.  Whatever the two type names are, the multiplier that
    [calculateTypeEffectiveness] returns is 0, 0.5, 1 or 2. *)
Theorem type_effectiveness_values (attackerType defenderType : string) :
  chart_or_default (calculateTypeEffectiveness attackerType defenderType).
Proof. apply calculateTypeEffectiveness_values. Qed.

Lemma chart_keys_checked_true : chart_keys_checked = true.
Proof. vm_compute. reflexivity. Qed.

Lemma chart_keys (a d : string) (row : gmap string Q) (m : Q) :
  typeChart !! a = Some row -> row !! d = Some m ->
  a ∈ chartTypes /\ d ∈ chartTypes.
Proof.
  intros Ha Hd.
  pose proof chart_keys_checked_true as Hc. unfold chart_keys_checked in Hc.
  rewrite forallb_forall in Hc.
  apply elem_of_map_to_list in Ha. apply list_elem_of_In in Ha.
  specialize (Hc _ Ha). cbn [fst snd] in Hc.
  apply andb_prop in Hc as [Hk Hrow]. apply bool_decide_eq_true in Hk.
  split; [exact Hk|].
  rewrite forallb_forall in Hrow.
  apply elem_of_map_to_list in Hd. apply list_elem_of_In in Hd.
  specialize (Hrow _ Hd). now apply bool_decide_eq_true in Hrow.
Qed.

(** X2.  The lookup is by exact name: when the attacking or the defending
    type is not one of the eighteen capitalised names of the chart (for
    instance the lower-case ["fire"]), the multiplier is the default 1.0. *)
Theorem type_effectiveness_unknown_type (attackerType defenderType : string) :
  attackerType ∉ chartTypes \/ defenderType ∉ chartTypes ->
  calculateTypeEffectiveness attackerType defenderType = 1%Q.
Proof.
  intros Hnot. unfold calculateTypeEffectiveness.
  destruct (typeChart !! attackerType) as [row|] eqn:Ha; [|reflexivity].
  destruct (row !! defenderType) as [m|] eqn:Hd; [|reflexivity].
  destruct (chart_keys _ _ _ _ Ha Hd) as [Hka Hkd]. tauto.
Qed.

Lemma type_effectiveness_unknown_type_witness :
  calculateTypeEffectiveness "fire" "water" = 1%Q.
Proof.
  apply (type_effectiveness_unknown_type "fire" "water").
  left. intros H. apply list_elem_of_In in H. simpl in H.
  intuition discriminate.
Defined.

(** ** Special damage *)

Lemma bump_atLeastOne (s : Q) : bump 1%Q s = atLeastOne s.
Proof. unfold bump, float_gt, atLeastOne. now destruct (Qle_bool s 1). Qed.

(** X3.  When both type lists are non-empty, the multiplier that
    [calculateSpecialDamage] resolves is the larger of 1.0 and the best
    multiplier over the pairs of attacker and defender types. *)
Theorem special_multiplier_best_pair (attackerTypes defenderTypes : list string)
    (s : Q) :
  spec_maxOverPairs attackerTypes defenderTypes = Some s ->
  maxMultiplier attackerTypes defenderTypes = atLeastOne s.
Proof.
  intros Hs. rewrite <- bump_atLeastOne. now apply maxMultiplier_floor.
Qed.

Lemma special_multiplier_best_pair_witness :
  maxMultiplier ["Grass"; "Poison"]%string ["Water"; "Flying"]%string
  = atLeastOne 2.
Proof.
  apply (special_multiplier_best_pair ["Grass"; "Poison"]%string
           ["Water"; "Flying"]%string 2).
  vm_compute. reflexivity.
Defined.

Lemma inner_loop_empty (ats : list string) (acc : Q) :
  fold_left (fun acc (a : string) => fold_left (fun acc d => bump acc (calculateTypeEffectiveness a d)) [] acc) ats acc = acc.
Proof. induction ats as [|a ats IH]; simpl; [reflexivity | exact IH]. Qed.

Lemma maxMultiplier_untyped (ats dts : list string) :
  ats = [] \/ dts = [] -> maxMultiplier ats dts = 1%Q.
Proof.
  intros [-> | ->]; unfold maxMultiplier; [reflexivity|].
  apply inner_loop_empty.
Qed.

Lemma special_damage_by_multiplier (pokedex : Pokedex) (a d : nat)
    (pa pd : Pokemon) (k : Z) :
  pokedex !! a = Some pa -> pokedex !! d = Some pd ->
  maxMultiplier (Types pa) (Types pd) = (k # 1)%Q ->
  calculateSpecialDamage pokedex (Some a) (Some d)
  = Some (Z.max 0 (SpecialAttack pa * k - SpecialDefense pd)).
Proof.
  intros Ha Hd Hm. rewrite (calculateSpecialDamage_raw _ _ _ _ _ Ha Hd).
  unfold specialRaw. rewrite Hm. do 2 f_equal.
  unfold int_of_float64, float64_of_int, inject_Z, Qminus, Qplus, Qmult, Qopp.
  cbn [Qnum Qden]. change (Z.pos (1 * 1 * 1)) with 1.
  rewrite Z.quot_1_r. lia.
Qed.

(** X4.  A special attack deals max(0, SpecialAttack - SpecialDefense) or
    max(0, 2 * SpecialAttack - SpecialDefense), whatever the types are.
    (Stats in the range on which the float64 arithmetic is exact.) *)
Theorem special_damage_two_values (pokedex : Pokedex) (a d : nat)
    (pa pd : Pokemon) :
  pokedex !! a = Some pa -> pokedex !! d = Some pd ->
  stat_ok (SpecialAttack pa) -> stat_ok (SpecialDefense pd) ->
  calculateSpecialDamage pokedex (Some a) (Some d)
    = Some (Z.max 0 (SpecialAttack pa - SpecialDefense pd))
  \/ calculateSpecialDamage pokedex (Some a) (Some d)
    = Some (Z.max 0 (2 * SpecialAttack pa - SpecialDefense pd)).
Proof.
  intros Ha Hd _ _.
  destruct (maxMultiplier_one_or_two (Types pa) (Types pd)) as [Hm | Hm].
  - left. rewrite (special_damage_by_multiplier _ _ _ _ _ 1 Ha Hd Hm).
    do 2 f_equal. lia.
  - right. rewrite (special_damage_by_multiplier _ _ _ _ _ 2 Ha Hd Hm).
    do 2 f_equal. lia.
Qed.

(** X5.  When the attacker or the defender has an empty type list, the
    special damage is the neutral max(0, SpecialAttack - SpecialDefense). *)
Theorem special_damage_untyped (pokedex : Pokedex) (a d : nat) (pa pd : Pokemon) :
  pokedex !! a = Some pa -> pokedex !! d = Some pd ->
  stat_ok (SpecialAttack pa) -> stat_ok (SpecialDefense pd) ->
  Types pa = [] \/ Types pd = [] ->
  calculateSpecialDamage pokedex (Some a) (Some d)
  = Some (Z.max 0 (SpecialAttack pa - SpecialDefense pd)).
Proof.
  intros Ha Hd _ _ Hty.
  rewrite (special_damage_by_multiplier _ _ _ _ _ 1 Ha Hd
             (maxMultiplier_untyped _ _ Hty)).
  do 2 f_equal. lia.
Qed.

(** ** Team selection *)

(** X6.  When the team selection of [handleConnection] completes, exactly
    [picks] creatures were appended to the team, each of them a pointer to
    an existing pokedex entry; the turn flag and the position are
    untouched. *)
Theorem chooseTeam_picks_valid (pokedex : Pokedex) (picks : nat)
    (inputs : list (option Z)) (c c' : Client) :
  chooseTeam pokedex picks inputs c = Some c' ->
  exists new : list nat,
    team c' = team c ++ new
    /\ length new = picks
    /\ Forall (fun p => is_Some (pokedex !! p)) new
    /\ isActive c' = isActive c /\ X c' = X c /\ Y c' = Y c.
Proof.
  revert picks c. induction inputs as [|input rest IH]; intros picks c H.
  - destruct picks; [|discriminate]. injection H as <-.
    exists []. rewrite app_nil_r. split_and!; try done.
  - destruct picks as [|picks'].
    { injection H as <-. exists []. rewrite app_nil_r. split_and!; done. }
    cbn [chooseTeam] in H.
    destruct input as [choice|]; [|now apply IH].
    destruct ((choice <? 1) || (Z.of_nat (length pokedex) <? choice)) eqn:Hv;
      [now apply IH|].
    apply orb_false_elim in Hv as [H1 H2].
    apply Z.ltb_ge in H1, H2.
    destruct (IH _ _ H) as (new & Ht & Hl & Hf & Ha & Hx & Hy).
    exists (Z.to_nat (choice - 1) :: new).
    cbn [team set_team isActive X Y] in *.
    rewrite Ht, <- app_assoc. split_and!; try done.
    + simpl. now rewrite Hl.
    + constructor; [|exact Hf]. apply lookup_lt_is_Some. lia.
Qed.

Lemma chooseTeam_done (pokedex : Pokedex) (inputs : list (option Z)) (c : Client) :
  chooseTeam pokedex 0 inputs c = Some c.
Proof. destruct inputs; reflexivity. Qed.

(** The selection completes exactly when enough input lines are valid. *)
Lemma chooseTeam_is_Some (pokedex : Pokedex) (picks : nat)
    (inputs : list (option Z)) (c : Client) :
  is_Some (chooseTeam pokedex picks inputs c)
  <-> (picks <= length (filter (fun i => validChoice pokedex i = true) inputs))%nat.
Proof.
  revert picks c. induction inputs as [|input rest IH]; intros picks c.
  - destruct picks; simpl.
    + split; [lia | intros _; eauto].
    + split; [intros [? ?]; discriminate | lia].
  - destruct picks as [|picks'].
    { rewrite chooseTeam_done. split; [lia | eauto]. }
    cbn [chooseTeam]. rewrite filter_cons.
    destruct input as [choice|]; cbn [validChoice].
    + destruct ((choice <? 1) || (Z.of_nat (length pokedex) <? choice)); cbn [negb].
      * rewrite decide_False by discriminate. apply IH.
      * rewrite decide_True by reflexivity. rewrite IH. simpl. lia.
    + rewrite decide_False by discriminate. apply IH.
Qed.

Lemma filter_validChoice_nil (inputs : list (option Z)) :
  filter (fun i => validChoice [] i = true) inputs = [].
Proof.
  induction inputs as [|[choice|] rest IH]; [reflexivity| |].
  - rewrite filter_cons. rewrite decide_False; [exact IH|].
    apply not_true_iff_false. unfold validChoice.
    apply negb_false_iff, orb_true_iff. rewrite !Z.ltb_lt. simpl. lia.
  - rewrite filter_cons. rewrite decide_False; [exact IH | discriminate].
Qed.

(** X7.  The team selection completes if and only if at least [picks] of
    the input lines are numbers between 1 and the size of the pokedex;
    every other line is answered with a retry and does not count. *)
Theorem chooseTeam_succeeds_iff (pokedex : Pokedex) (picks : nat)
    (inputs : list (option Z)) (c : Client) :
  is_Some (chooseTeam pokedex picks inputs c)
  <-> (picks <= length (filter (fun i => validChoice pokedex i = true) inputs))%nat.
Proof. apply chooseTeam_is_Some. Qed.

(** X8.  With an empty pokedex no line is a valid choice: a selection of
    at least one creature never completes, it ends with the read error. *)
Theorem chooseTeam_empty_pokedex (picks : nat) (inputs : list (option Z))
    (c : Client) :
  (0 < picks)%nat -> chooseTeam [] picks inputs c = None.
Proof.
  intros Hp. apply eq_None_not_Some. rewrite chooseTeam_is_Some.
  rewrite filter_validChoice_nil. simpl. lia.
Qed.

(** ** Turn order *)

Lemma findOpponent_other (cs : gmap nat Client) (conn oconn : nat) (c : Client) :
  findOpponent cs conn = Some (oconn, c) -> oconn <> conn /\ cs !! oconn = Some c.
Proof.
  unfold findOpponent. intros H. apply head_Some in H as [l' Hl].
  assert (Hin : (oconn, c) ∈ filter (fun kv : nat * Client => kv.1 ≠ conn)
                  (map_to_list cs)) by (rewrite Hl; left).
  apply list_elem_of_filter in Hin as [Hne Hin].
  split; [exact Hne | now apply elem_of_map_to_list].
Qed.

Lemma findOpponent_two (c1 c2 : Client) :
  findOpponent (<[1%nat := c1]> (<[2%nat := c2]> ∅)) 1 = Some (2%nat, c2)
  /\ findOpponent (<[1%nat := c1]> (<[2%nat := c2]> ∅)) 2 = Some (1%nat, c1).
Proof. split; vm_compute; reflexivity. Qed.

(** The [clients] map after a hit. *)
Lemma battleTurn_hit_clients (b : Battle) (conn : nat) (input : option Z)
    (b' : Battle) (defender : nat) (damage : Z) (won : bool) :
  battleTurn b conn input = Some (Hit b' defender damage won) ->
  exists (client : Client) (oconn : nat) (opponent : Client) (rest : list nat)
         (pd : Pokemon),
    clients b !! conn = Some client
    /\ isActive client = true
    /\ findOpponent (clients b) conn = Some (oconn, opponent)
    /\ team opponent = defender :: rest
    /\ b_pokedex b !! defender = Some pd
    /\ won = (int_sub (HP pd) damage <=? 0) && bool_decide (rest = [])
    /\ clients b'
       = if won then <[oconn := set_team opponent rest]> (clients b)
         else <[oconn := set_isActive
                           (if int_sub (HP pd) damage <=? 0
                            then set_team opponent rest else opponent) true]>
                (<[conn := set_isActive client false]> (clients b)).
Proof.
  unfold battleTurn. intros H.
  destruct (clients b !! conn) as [client|] eqn:Hc; [|discriminate].
  cbn -[calculateNormalDamage calculateSpecialDamage int_sub] in H.
  destruct (isActive client) eqn:Hact; [|discriminate].
  destruct (team client) as [|attacker ?]; [discriminate|].
  destruct input as [attackChoice|]; [|discriminate].
  destruct ((attackChoice <? 1) || (2 <? attackChoice)); [discriminate|].
  destruct (findOpponent (clients b) conn) as [[oconn opponent]|] eqn:Hopp;
    [|discriminate].
  destruct (team opponent) as [|d rest] eqn:Hteam; [discriminate|].
  match type of H with
  | context [mbind _ ?e] => destruct e as [dmg|] eqn:Hdmg
  end; cbn -[calculateNormalDamage calculateSpecialDamage int_sub] in H;
    [|discriminate].
  destruct (b_pokedex b !! d) as [pd|] eqn:Hpd;
    cbn -[calculateNormalDamage calculateSpecialDamage int_sub] in H;
    [|discriminate].
  exists client, oconn, opponent, rest, pd.
  destruct (int_sub (HP pd) dmg <=? 0) eqn:Hhp.
  - destruct rest as [|r rest'];
      injection H as <- <- <- <-; cbn [b_pokedex clients];
      rewrite Hhp; split_and!; done.
  - injection H as <- <- <- <-. cbn [b_pokedex clients].
    rewrite Hhp. split_and!; done.
Qed.

(** X9.  After a hit that does not win the battle the turn has passed:
    the attacker's next pass of the loop only waits, and a client of another
    connection has the turn. *)
Theorem turn_passes_after_hit (b : Battle) (conn : nat) (input next : option Z)
    (b' : Battle) (defender : nat) (damage : Z) :
  battleTurn b conn input = Some (Hit b' defender damage false) ->
  battleTurn b' conn next = Some Waiting
  /\ exists (oconn : nat) (opponent' : Client),
       oconn <> conn /\ clients b' !! oconn = Some opponent'
       /\ isActive opponent' = true.
Proof.
  intros H.
  destruct (battleTurn_hit_clients _ _ _ _ _ _ _ H)
    as (client & oconn & opponent & rest & pd & Hc & Hact & Hopp & Hteam
        & Hpd & Hwon & Hcs).
  destruct (findOpponent_other _ _ _ _ Hopp) as [Hne Ho].
  cbn match in Hcs. split.
  - unfold battleTurn. rewrite Hcs.
    rewrite lookup_insert_ne by exact Hne. rewrite lookup_insert_eq.
    reflexivity.
  - eexists oconn, _. split; [exact Hne|]. rewrite Hcs.
    rewrite lookup_insert_eq. split; reflexivity.
Qed.

(** X10.  A hit writes one pokedex entry, the defender's: the pokedex keeps
    its length and every other entry, and the attacker's team is
    unchanged. *)
Theorem hit_frame (b : Battle) (conn : nat) (input : option Z) (b' : Battle)
    (defender : nat) (damage : Z) (won : bool) :
  battleTurn b conn input = Some (Hit b' defender damage won) ->
  length (b_pokedex b') = length (b_pokedex b)
  /\ (forall i : nat, i <> defender -> b_pokedex b' !! i = b_pokedex b !! i)
  /\ team <$> clients b' !! conn = team <$> clients b !! conn.
Proof.
  intros H.
  destruct (battleTurn_hit_inv _ _ _ _ _ _ _ H)
    as (pd & _ & _ & _ & _ & _ & _ & _ & Hb' & _).
  destruct (battleTurn_hit_clients _ _ _ _ _ _ _ H)
    as (client & oconn & opponent & rest & pd' & Hc & Hact & Hopp & Hteam
        & Hpd & Hwon & Hcs).
  destruct (findOpponent_other _ _ _ _ Hopp) as [Hne Ho].
  split_and!.
  - rewrite Hb'. apply length_insert.
  - intros i Hi. rewrite Hb'. now apply list_lookup_insert_ne.
  - rewrite Hcs. destruct won.
    + now rewrite lookup_insert_ne by exact Hne.
    + rewrite lookup_insert_ne by exact Hne. rewrite lookup_insert_eq.
      now rewrite Hc.
Qed.

Lemma chooseTeam_isActive (pokedex : Pokedex) (picks : nat)
    (inputs : list (option Z)) (c c' : Client) :
  chooseTeam pokedex picks inputs c = Some c' -> isActive c' = isActive c.
Proof.
  revert picks c. induction inputs as [|input rest IH]; intros picks c H.
  - destruct picks; [|discriminate]. now injection H as <-.
  - destruct picks as [|picks']; [now injection H as <-|].
    cbn [chooseTeam] in H.
    destruct input as [choice|]; [|exact (IH _ _ H)].
    destruct ((choice <? 1) || (Z.of_nat (length pokedex) <? choice));
      [exact (IH _ _ H)|].
    now rewrite (IH _ _ H).
Qed.

Lemma electFirst_one_active (pokedex : Pokedex) (c1 c2 c1' c2' : Client)
    (coin : Z) :
  isActive c1 = false -> isActive c2 = false ->
  electFirst pokedex c1 c2 coin = Some (c1', c2') ->
  isActive c1' = negb (isActive c2').
Proof.
  intros H1 H2. unfold electFirst. intros H.
  destruct (head (team c1)) as [l1|]; [|discriminate].
  destruct (head (team c2)) as [l2|]; [|discriminate].
  cbn [mbind option_bind] in H.
  destruct (pokedex !! l1) as [p1|]; [|discriminate].
  destruct (pokedex !! l2) as [p2|]; [|discriminate].
  cbn [mbind option_bind] in H.
  repeat case_match; injection H as <- <-; cbn [isActive set_isActive];
    now rewrite ?H1, ?H2.
Qed.

Lemma two_clients_lookup (c1 c2 client : Client) (conn : nat) :
  (<[1%nat := c1]> (<[2%nat := c2]> ∅) : gmap nat Client) !! conn = Some client ->
  (conn = 1%nat /\ client = c1) \/ (conn = 2%nat /\ client = c2).
Proof.
  intros H. apply lookup_insert_Some in H as [[<- <-] | [_ H]]; [now left|].
  apply lookup_insert_Some in H as [[<- <-] | [_ H]]; [now right|].
  now rewrite lookup_empty in H.
Qed.

Lemma set_team_isActive (c : Client) (t : list nat) :
  isActive (set_team c t) = isActive c.
Proof. reflexivity. Qed.

Ltac two_clients_eq :=
  apply map_eq; intros k;
  destruct (decide (k = 1%nat)) as [->|?];
    [|destruct (decide (k = 2%nat)) as [->|?]];
  simplify_map_eq; reflexivity.

(** X11.  In every battle state that a run reaches from [main], the
    [clients] map holds connections 1 and 2 and exactly one of the two
    clients has the turn. *)
Theorem reachable_one_turn_owner (b : Battle) :
  reachable b -> one_turn_owner b.
Proof.
  induction 1 as [pokedex inputs1 inputs2 coin b Hstart
                 | b conn input b' d dmg won _ IH Hturn].
  - unfold startBattle in Hstart.
    destruct (chooseTeam pokedex 3 inputs1 newClient) as [c1|] eqn:H1;
      [|discriminate].
    destruct (chooseTeam pokedex 3 inputs2 newClient) as [c2|] eqn:H2;
      [|discriminate].
    cbn [mbind option_bind] in Hstart.
    destruct (electFirst pokedex c1 c2 coin) as [[c1' c2']|] eqn:He;
      [|discriminate].
    cbn [mbind option_bind] in Hstart. injection Hstart as <-.
    exists c1', c2'. split; [reflexivity|].
    eapply electFirst_one_active; [| |exact He].
    + now rewrite (chooseTeam_isActive _ _ _ _ _ H1).
    + now rewrite (chooseTeam_isActive _ _ _ _ _ H2).
  - destruct IH as (c1 & c2 & Hcs & Hact).
    destruct (battleTurn_hit_clients _ _ _ _ _ _ _ Hturn)
      as (client & oconn & opponent & rest & pd & Hc & Hcact & Hopp & Hteam
          & Hpd & Hwon & Hcs').
    rewrite Hcs in Hc, Hopp, Hcs'.
    destruct (findOpponent_two c1 c2) as [Hf1 Hf2].
    destruct (two_clients_lookup _ _ _ _ Hc) as [[-> ->] | [-> ->]].
    + rewrite Hf1 in Hopp. injection Hopp as <- <-.
      rewrite Hcact in Hact. symmetry in Hact. apply negb_true_iff in Hact.
      destruct won.
      * exists c1, (set_team c2 rest). split.
        -- rewrite Hcs'. two_clients_eq.
        -- now rewrite set_team_isActive, Hcact, Hact.
      * eexists (set_isActive c1 false), _. split.
        -- rewrite Hcs'. two_clients_eq.
        -- reflexivity.
    + rewrite Hf2 in Hopp. injection Hopp as <- <-.
      rewrite Hcact in Hact. cbn in Hact.
      destruct won.
      * exists (set_team c1 rest), c2. split.
        -- rewrite Hcs'. two_clients_eq.
        -- now rewrite set_team_isActive, Hcact, Hact.
      * eexists _, (set_isActive c2 false). split.
        -- rewrite Hcs'. two_clients_eq.
        -- reflexivity.
Qed.

(** ** [getNextActivePokemon] *)

(** X12.  [getNextActivePokemon] returns the first team member whose HP is
    positive, every member before it having HP zero or less; it returns nil
    exactly when every member has HP zero or less. *)
Theorem getNextActivePokemon_first_healthy (pokedex : Pokedex)
    (members : list nat) :
  Forall (fun p => is_Some (pokedex !! p)) members ->
  match getNextActivePokemon pokedex members with
  | Some (Some p) =>
      exists pre post : list nat,
        members = pre ++ p :: post
        /\ Forall (fainted pokedex) pre /\ healthy pokedex p
  | Some None => Forall (fainted pokedex) members
  | None => False
  end.
Proof.
  induction 1 as [|p rest [entry He] _ IH]; cbn [getNextActivePokemon].
  - constructor.
  - rewrite He. cbn [mbind option_bind].
    destruct (Z.ltb_spec 0 (HP entry)) as [Hpos | Hneg].
    + exists [], rest. split_and!; [reflexivity | constructor |].
      exists entry. now split.
    + assert (Hf : fainted pokedex p) by (exists entry; now split).
      destruct (getNextActivePokemon pokedex rest) as [[q|]|]; [| |exact IH].
      * destruct IH as (pre & post & -> & Hpre & Hq).
        exists (p :: pre), post. split_and!; [reflexivity | | exact Hq].
        now constructor.
      * now constructor.
Qed.

Lemma getNextActivePokemon_first_healthy_witness :
  match getNextActivePokemon [set_HP bulbasaur (-16); charmander; squirtle]
          [0; 0; 2; 1]%nat with
  | Some (Some p) =>
      exists pre post : list nat,
        [0; 0; 2; 1]%nat = pre ++ p :: post
        /\ Forall (fainted [set_HP bulbasaur (-16); charmander; squirtle]) pre
        /\ healthy [set_HP bulbasaur (-16); charmander; squirtle] p
  | Some None =>
      Forall (fainted [set_HP bulbasaur (-16); charmander; squirtle])
        [0; 0; 2; 1]%nat
  | None => False
  end.
Proof.
  apply (getNextActivePokemon_first_healthy
           [set_HP bulbasaur (-16); charmander; squirtle] [0; 0; 2; 1]%nat).
  repeat constructor; eexists; reflexivity.
Defined.

(** ** Spawning, further *)

(** What one iteration of the spawn loop does, by the state of the drawn
    cell. *)
Lemma spawnOne_cases (d : SpawnDraw) (pw pw' : Pokeworld) :
  spawnOne d pw = Some pw' ->
  (is_Some (grid pw !! drawnCell d) /\ pw' = pw)
  \/ (grid pw !! drawnCell d = None
      /\ exists (p : nat) (entry : Pokemon) (lvl : Z),
           pokedex pw !! p = Some entry
           /\ 1 <= lvl <= 100
           /\ pw' = mkPokeworld
                      (<[drawnCell d := p]> (grid pw)) (players pw)
                      (<[p := set_Level_EV entry lvl
                                (drawEV d * (1 # 2) + (1 # 2))%Q]> (pokedex pw))
                      (<[p := length (timers pw)]> (despawnTimers pw))
                      (TotalPokemon pw)
                      (timers pw ++ [mkTimer (drawnCell d).1 (drawnCell d).2 p true])).
Proof.
  unfold spawnOne, drawnCell, Intn. intros H.
  change (worldSizeX <=? 0) with false in H.
  change (worldSizeY <=? 0) with false in H.
  cbn [mbind option_bind] in H.
  destruct (grid pw !! (drawX d mod worldSizeX, drawY d mod worldSizeY))
    as [q|] eqn:Hcell.
  - left. injection H as <-. eauto.
  - right. split; [reflexivity|].
    destruct (Z.of_nat (length (pokedex pw)) <=? 0); [discriminate|].
    change (100 <=? 0) with false in H.
    cbn [mbind option_bind] in H.
    destruct (pokedex pw !! Z.to_nat (drawIndex d mod Z.of_nat (length (pokedex pw))))
      as [entry|] eqn:He; [|discriminate].
    cbn [mbind option_bind] in H. injection H as <-.
    pose proof (Z.mod_pos_bound (drawLevel d) 100 ltac:(lia)) as Hl.
    eexists _, entry, (drawLevel d mod 100 + 1).
    split; [exact He|]. split; [lia|].
    unfold int_add. rewrite wrap_id by (unfold min_int, max_int; lia).
    reflexivity.
Qed.

Lemma drawnCell_inGrid (d : SpawnDraw) :
  inGrid (drawnCell d).1 (drawnCell d).2 = true.
Proof.
  unfold drawnCell, inGrid, worldSizeX, worldSizeY. cbn [fst snd].
  pose proof (Z.mod_pos_bound (drawX d) 1000 ltac:(lia)).
  pose proof (Z.mod_pos_bound (drawY d) 1000 ltac:(lia)).
  rewrite !andb_true_iff, !Z.leb_le, !Z.ltb_lt. lia.
Qed.

Lemma spawn_extends_refl (pw : Pokeworld) : spawn_extends pw pw.
Proof. unfold spawn_extends. split_and!; eauto. Qed.

Lemma spawn_extends_trans (pw1 pw2 pw3 : Pokeworld) :
  spawn_extends pw1 pw2 -> spawn_extends pw2 pw3 -> spawn_extends pw1 pw3.
Proof.
  intros (T1 & P1 & L1 & G1 & Ti1 & Tl1 & Lv1) (T2 & P2 & L2 & G2 & Ti2 & Tl2 & Lv2).
  unfold spawn_extends. split_and!; try congruence; eauto; try lia.
  intros p e He Hl. destruct (Lv1 _ _ He Hl) as (e' & He' & Hl'). eauto.
Qed.

Lemma spawnOne_extends (d : SpawnDraw) (pw pw' : Pokeworld) :
  spawnOne d pw = Some pw' -> spawn_extends pw pw'.
Proof.
  intros H. destruct (spawnOne_cases _ _ _ H)
    as [[_ ->] | (Hcell & p & entry & lvl & He & Hl & ->)];
    [apply spawn_extends_refl|].
  unfold spawn_extends. cbn [TotalPokemon players pokedex grid timers].
  split_and!; try reflexivity.
  - apply length_insert.
  - intros cell q Hq. rewrite lookup_insert_ne; [exact Hq|].
    intros <-. congruence.
  - intros id t Ht. now apply lookup_app_l_Some.
  - rewrite length_app. lia.
  - intros q e Hq Hlv. destruct (decide (q = p)) as [->|Hne].
    + eexists. split.
      * apply list_lookup_insert_eq. eapply lookup_lt_Some. exact He.
      * cbn [Level set_Level_EV]. exact Hl.
    + exists e. split; [|exact Hlv].
      rewrite list_lookup_insert_ne by congruence. exact Hq.
Qed.

Lemma spawnLoop_extends (rand : nat -> SpawnDraw) (n i : nat) (pw pw' : Pokeworld) :
  spawnLoop rand i n pw = Some pw' -> spawn_extends pw pw'.
Proof.
  revert i pw. induction n as [|n IH]; intros i pw H; simpl in H.
  - injection H as <-. apply spawn_extends_refl.
  - destruct (TotalPokemon pw <? 50).
    + destruct (spawnOne (rand i) pw) as [pw1|] eqn:H1; [|discriminate].
      cbn [mbind option_bind] in H.
      eapply spawn_extends_trans; [eapply spawnOne_extends; exact H1|].
      eapply IH. exact H.
    + injection H as <-. apply spawn_extends_refl.
Qed.

(** X13.  A call of [spawnPokemon] that returns leaves [TotalPokemon] and
    the sessions unchanged, never overwrites or removes a creature that was
    on the grid, and adds at most [numPokemon] creatures. *)
Theorem spawnPokemon_frame (rand : nat -> SpawnDraw) (numPokemon : Z)
    (pw pw' : Pokeworld) :
  spawnPokemon rand numPokemon pw = Some pw' ->
  TotalPokemon pw' = TotalPokemon pw
  /\ players pw' = players pw
  /\ (forall (cell : Z * Z) (p : nat),
        grid pw !! cell = Some p -> grid pw' !! cell = Some p)
  /\ (liveCreatures pw <= liveCreatures pw'
      <= liveCreatures pw + Z.to_nat numPokemon)%nat.
Proof.
  intros H. unfold spawnPokemon in H.
  destruct (spawnLoop_extends _ _ _ _ _ H) as (HT & HP & _ & HG & _).
  pose proof (spawnLoop_size _ _ _ _ _ H). split_and!; eauto; lia.
Qed.

Lemma spawnLoop_new (rand : nat -> SpawnDraw) (n i : nat) (pw pw' : Pokeworld)
    (cell : Z * Z) (p : nat) :
  spawnLoop rand i n pw = Some pw' ->
  grid pw !! cell = None -> grid pw' !! cell = Some p ->
  inGrid cell.1 cell.2 = true
  /\ (exists e : Pokemon, pokedex pw' !! p = Some e /\ 1 <= Level e <= 100)
  /\ (exists id : nat,
        (length (timers pw) <= id)%nat
        /\ timers pw' !! id = Some (mkTimer cell.1 cell.2 p true)).
Proof.
  revert i pw. induction n as [|n IH]; intros i pw H Hnone Hsome; simpl in H.
  - injection H as <-. congruence.
  - destruct (TotalPokemon pw <? 50); [|injection H as <-; congruence].
    destruct (spawnOne (rand i) pw) as [pw1|] eqn:H1; [|discriminate].
    cbn [mbind option_bind] in H.
    pose proof (spawnOne_extends _ _ _ H1) as (_ & _ & _ & _ & _ & Hlen1 & _).
    pose proof (spawnLoop_extends _ _ _ _ _ H) as (_ & _ & _ & HG & HT & _ & HL).
    destruct (grid pw1 !! cell) as [p1|] eqn:Hc1.
    + destruct (spawnOne_cases _ _ _ H1)
        as [[_ ->] | (Hcell & q & entry & lvl & He & Hl & ->)]; [congruence|].
      cbn [grid pokedex timers] in *.
      destruct (decide (drawnCell (rand i) = cell)) as [<-|Hne];
        [|rewrite lookup_insert_ne in Hc1 by exact Hne; congruence].
      rewrite lookup_insert_eq in Hc1. injection Hc1 as <-.
      pose proof (HG _ _ (lookup_insert_eq _ _ _)) as Hp.
      assert (p = q) as -> by congruence.
      split_and!.
      * apply drawnCell_inGrid.
      * eapply HL.
        -- apply list_lookup_insert_eq. eapply lookup_lt_Some. exact He.
        -- exact Hl.
      * exists (length (timers pw)). split; [lia|].
        apply HT. rewrite lookup_app_r by lia.
        now rewrite Nat.sub_diag.
    + destruct (IH _ _ H Hc1 Hsome) as (Hin & He & id & Hid & Ht).
      split_and!; [exact Hin | exact He |].
      exists id. split; [lia | exact Ht].
Qed.

(** X14.  Every creature that a call of [spawnPokemon] has put on a cell
    that was empty sits inside the 1000 by 1000 grid, points to a pokedex
    entry whose level is between 1 and 100, and has a pending despawn timer
    for its cell and pointer among the timers the call created. *)
Theorem spawned_creatures (rand : nat -> SpawnDraw) (numPokemon : Z)
    (pw pw' : Pokeworld) (cell : Z * Z) (p : nat) :
  spawnPokemon rand numPokemon pw = Some pw' ->
  grid pw !! cell = None -> grid pw' !! cell = Some p ->
  inGrid cell.1 cell.2 = true
  /\ (exists e : Pokemon, pokedex pw' !! p = Some e /\ 1 <= Level e <= 100)
  /\ (exists id : nat,
        (length (timers pw) <= id)%nat
        /\ timers pw' !! id = Some (mkTimer cell.1 cell.2 p true)).
Proof. unfold spawnPokemon. apply spawnLoop_new. Qed.

(** X15.  With an empty pokedex, [spawnPokemon] panics as soon as its
    first draw is an empty cell ([rand.Intn(0)]). *)
Theorem spawn_empty_pokedex_panics (rand : nat -> SpawnDraw) (numPokemon : Z)
    (pw : Pokeworld) :
  pokedex pw = [] -> 0 < numPokemon -> TotalPokemon pw < 50 ->
  grid pw !! drawnCell (rand 0%nat) = None ->
  spawnPokemon rand numPokemon pw = None.
Proof.
  intros Hp Hn Ht Hcell. unfold spawnPokemon.
  destruct (Z.to_nat numPokemon) as [|n] eqn:En; [lia|].
  cbn [spawnLoop]. destruct (Z.ltb_spec (TotalPokemon pw) 50); [|lia].
  assert (H1 : spawnOne (rand 0%nat) pw = None).
  { unfold spawnOne, Intn. unfold drawnCell in Hcell.
    change (worldSizeX <=? 0) with false.
    change (worldSizeY <=? 0) with false.
    cbn [mbind option_bind]. rewrite Hcell, Hp. reflexivity. }
  now rewrite H1.
Qed.

(** X16.  A spawn on an empty cell followed by the elapse of the timer it
    created: the grid is back to what it was, and [TotalPokemon] is one
    lower than before the spawn. *)
Theorem spawn_then_despawn (rand : nat -> SpawnDraw) (pw pw' : Pokeworld) :
  TotalPokemon pw < 50 ->
  grid pw !! drawnCell (rand 0%nat) = None ->
  spawnPokemon rand 1 pw = Some pw' ->
  let pw'' := timerElapses (length (timers pw)) pw' in
  liveCreatures pw' = S (liveCreatures pw)
  /\ grid pw'' = grid pw
  /\ TotalPokemon pw'' = int_sub (TotalPokemon pw) 1.
Proof.
  intros Ht Hcell H. unfold spawnPokemon in H.
  change (Z.to_nat 1) with 1%nat in H. cbn [spawnLoop] in H.
  destruct (Z.ltb_spec (TotalPokemon pw) 50); [|lia].
  destruct (spawnOne (rand 0%nat) pw) as [pw1|] eqn:H1; [|discriminate].
  cbn [mbind option_bind spawnLoop] in H. injection H as <-.
  destruct (spawnOne_cases _ _ _ H1)
    as [[[q Hq] _] | (_ & p & entry & lvl & He & Hl & ->)]; [congruence|].
  cbn zeta. unfold timerElapses, liveCreatures. cbn [timers grid].
  rewrite lookup_app_r by lia. rewrite Nat.sub_diag. cbn [lookup list_lookup].
  cbn [tPending]. unfold despawnCallback, set_timers.
  cbn [grid tX tY tPokemon TotalPokemon].
  rewrite <- surjective_pairing.
  rewrite decide_True by apply lookup_insert_eq.
  cbn [grid TotalPokemon]. split_and!.
  - now apply map_size_insert_None.
  - now apply delete_insert_id.
  - reflexivity.
Qed.

(** ** The session loop, further *)

Lemma movePlayer_in_grid (input : string) (c : Client) :
  inGrid (X c) (Y c) = true ->
  inGrid (X (movePlayer input c)) (Y (movePlayer input c)) = true
  /\ Z.abs (X (movePlayer input c) - X c)
     + Z.abs (Y (movePlayer input c) - Y c) <= 1.
Proof.
  intros Hin. apply inGrid_bounds in Hin as [Hx Hy].
  rewrite inGrid_bounds.
  unfold worldSizeX, worldSizeY in *.
  unfold movePlayer, worldSizeX, worldSizeY, int_sub, int_add.
  repeat case_decide;
    try match goal with
        | |- context [?a <? ?b] => destruct (Z.ltb_spec a b)
        end; cbn [X Y set_pos];
    rewrite ?wrap_id by (unfold min_int, max_int; lia); lia.
Qed.

(** X17.  No pass of the loop of [handlePlayer] is ever completed.  For
    every input line, the pass of a session that stands inside the grid
    (started with the mutexes free) blocks at the second [client.Lock()]:
    by then the session has moved
    by at most one cell and is still inside the grid; its team and its
    auto-mode fields, the other sessions, the grid, the pokedex, the
    counter and the timers are as they were.  The pass does not panic,
    and it keeps the mutexes locked: from then on every spawn cycle and
    every despawn callback blocks at its [pw.Lock()], so no creature
    spawns or despawns any more. *)
Theorem handlePlayer_pass_blocks (conn : nat) (input : string)
    (pw : Pokeworld) (c : Client) :
  players pw !! conn = Some c ->
  inGrid (X c) (Y c) = true ->
  exists (pw' : Pokeworld) (c' : Client),
    handlePlayer conn input pw = Blocks pw'
    /\ holdsMutex (handlePlayer conn input pw) = true
    /\ players pw' = <[conn := c']> (players pw)
    /\ inGrid (X c') (Y c') = true
    /\ Z.abs (X c' - X c) + Z.abs (Y c' - Y c) <= 1
    /\ team c' = team c
    /\ AutoMode c' = AutoMode c /\ AutoUntil c' = AutoUntil c
    /\ grid pw' = grid pw
    /\ pokedex pw' = pokedex pw
    /\ TotalPokemon pw' = TotalPokemon pw
    /\ despawnTimers pw' = despawnTimers pw
    /\ timers pw' = timers pw
    /\ (forall (rand : nat -> SpawnDraw) (n : Z),
          spawnCycle (holdsMutex (handlePlayer conn input pw)) rand n pw'
          = Blocks pw')
    /\ (forall id : nat,
          despawnFires (holdsMutex (handlePlayer conn input pw)) id pw'
          = Blocks pw').
Proof.
  intros Hc Hin. rewrite (handlePlayer_blocks _ _ _ _ Hc).
  destruct (movePlayer_fields input c) as (Ht & _ & Ha & Hu).
  destruct (movePlayer_in_grid input c Hin) as [Hg Hd].
  eexists. exists (movePlayer input c).
  cbn [holdsMutex players grid pokedex TotalPokemon despawnTimers timers
       spawnCycle despawnFires].
  split_and!; done.
Qed.

(** X19.  The ["auto"] case of the input switch of [handlePlayer] is dead:
    it only matches the bare word, whose split has one part, so for every
    input line the switch does what the four movement cases do and leaves
    [AutoMode] and [AutoUntil] as they are, whatever [strconv.Atoi]
    returns. *)
Theorem auto_command_is_dead (Atoi : string -> option Z) (input : string)
    (now : Z) (c : Client) :
  handlePlayerSwitch Atoi input now c = movePlayer input c
  /\ AutoMode (handlePlayerSwitch Atoi input now c) = AutoMode c
  /\ AutoUntil (handlePlayerSwitch Atoi input now c) = AutoUntil c.
Proof.
  assert (Heq : handlePlayerSwitch Atoi input now c = movePlayer input c).
  { unfold handlePlayerSwitch, movePlayer.
    repeat (case_decide; [reflexivity|]).
    case_decide; [|reflexivity]. subst input. reflexivity. }
  rewrite Heq. destruct (movePlayer_fields input c) as (_ & _ & Ha & Hu).
  split_and!; done.
Qed.

(** X20.  For every input line, the movement of [handlePlayer] keeps a
    session that is inside the grid inside the grid, and moves it by at
    most one cell. *)
Theorem movePlayer_stays_in_grid (input : string) (c : Client) :
  inGrid (X c) (Y c) = true ->
  inGrid (X (movePlayer input c)) (Y (movePlayer input c)) = true
  /\ Z.abs (X (movePlayer input c) - X c)
     + Z.abs (Y (movePlayer input c) - Y c) <= 1.
Proof. apply movePlayer_in_grid. Qed.

Lemma despawnCallback_TotalPokemon (t : Timer) (pw : Pokeworld) :
  TotalPokemon (despawnCallback t pw) = TotalPokemon pw
  \/ TotalPokemon (despawnCallback t pw) = int_sub (TotalPokemon pw) 1.
Proof. unfold despawnCallback. case_decide; [right | left]; reflexivity. Qed.

Lemma timerElapses_TotalPokemon (id : nat) (pw : Pokeworld) :
  TotalPokemon (timerElapses id pw) = TotalPokemon pw
  \/ TotalPokemon (timerElapses id pw) = int_sub (TotalPokemon pw) 1.
Proof.
  unfold timerElapses. destruct (timers pw !! id) as [t|]; [|now left].
  destruct (tPending t); [|now left].
  apply (despawnCallback_TotalPokemon t (set_timers pw _)).
Qed.

(** X21.  No operation on the Pokeworld (a spawn cycle, a pass of the
    session loop up to the point where it blocks, the elapse of a timer)
    increases [TotalPokemon]; one operation lowers it by at most one. *)
Theorem TotalPokemon_never_increases (pw pw' : Pokeworld) :
  world_step pw pw' ->
  min_int < TotalPokemon pw <= max_int ->
  TotalPokemon pw - 1 <= TotalPokemon pw' <= TotalPokemon pw.
Proof.
  intros Hstep Hrange.
  assert (Hsub : int_sub (TotalPokemon pw) 1 = TotalPokemon pw - 1)
    by (unfold int_sub; apply wrap_id; lia).
  destruct Hstep as [rand n pw pw' H | conn input pw pw' H | id pw].
  - unfold spawnPokemon in H. rewrite (spawnLoop_TotalPokemon _ _ _ _ _ H). lia.
  - unfold handlePlayer in H.
    destruct (players pw !! conn) as [c|]; [|discriminate].
    cbn [orPanic] in H. injection H as <-. cbn [TotalPokemon]. lia.
  - destruct (timerElapses_TotalPokemon id pw) as [-> | ->]; lia.
Qed.

(** ** The [Player] world, further *)

(** X22.  In a world of size 0 (the [world] slice of server.go is never
    allocated) [handlePlayerMovement] panics for each of the four
    directions: the wraparound divides by zero. *)
Theorem move_in_empty_world_panics (w : PlayerWorld.World) (player : nat)
    (p : PlayerWorld.Player) (direction : string) :
  PlayerWorld.worldSize w = 0 ->
  PlayerWorld.heap w !! player = Some p ->
  direction ∈ directions ->
  PlayerWorld.handlePlayerMovement player direction w = Panics.
Proof.
  intros Hs Hp Hd. unfold PlayerWorld.handlePlayerMovement. rewrite Hp.
  cbn [orPanic].
  assert (Hdest : PlayerWorld.destination w p direction = None).
  { unfold PlayerWorld.destination. rewrite Hs. unfold int_rem.
    destruct (directions_cases _ Hd) as [-> | [-> | [-> | ->]]]; reflexivity. }
  now rewrite Hdest.
Qed.

(** What a call of [handlePlayerMovement] has done when it returns or
    blocks. *)
Lemma handlePlayerMovement_inv (player : nat) (direction : string)
    (w w' : PlayerWorld.World) (p : PlayerWorld.Player) :
  PlayerWorld.heap w !! player = Some p ->
  PlayerWorld.handlePlayerMovement player direction w = Returns w'
  \/ PlayerWorld.handlePlayerMovement player direction w = Blocks w' ->
  w' = w
  \/ exists x y : Z,
       PlayerWorld.destination w p direction = Some (Some (x, y))
       /\ w' = PlayerWorld.mkWorld (PlayerWorld.worldSize w)
                 (<[(x, y) := player]>
                    (delete (PlayerWorld.X p, PlayerWorld.Y p)
                       (PlayerWorld.world w)))
                 (<[player := PlayerWorld.set_pos p x y]> (PlayerWorld.heap w)).
Proof.
  intros Hp. unfold PlayerWorld.handlePlayerMovement. rewrite Hp.
  cbn [orPanic].
  destruct (PlayerWorld.destination w p direction) as [[[x y]|]|];
    cbn [orPanic]; [| intros [[= <-] | [=]]; now left | intros [[=] | [=]]].
  destruct (PlayerWorld.cellAt w x y) as [occupant|];
    [|intros [[=] | [=]]].
  cbn [orPanic].
  match goal with
  | |- context [orPanic ?e _] => destruct e as [[|]|]
  end; cbn [orPanic];
    [intros [[= <-] | [=]]; now left | | intros [[=] | [=]]].
  destruct (PlayerWorld.cellAt w _ _); [|intros [[=] | [=]]].
  cbn [orPanic]. cbn zeta.
  intros H. right. exists x, y. split; [reflexivity|].
  destruct (bool_decide (size (PlayerWorld.Pokemons p) = 0%nat));
    destruct H as [H | H]; congruence.
Qed.

(** X23.  A call of [handlePlayerMovement] never changes a collection,
    whether it returns or blocks after the move: the moving player keeps
    its id and its [Pokemons], and the records of all other players are
    untouched. *)
Theorem move_never_captures (player : nat) (direction : string)
    (w w' : PlayerWorld.World) (p : PlayerWorld.Player) :
  PlayerWorld.heap w !! player = Some p ->
  PlayerWorld.handlePlayerMovement player direction w = Returns w'
  \/ PlayerWorld.handlePlayerMovement player direction w = Blocks w' ->
  PlayerWorld.worldSize w' = PlayerWorld.worldSize w
  /\ (forall q : nat, q <> player ->
        PlayerWorld.heap w' !! q = PlayerWorld.heap w !! q)
  /\ exists p' : PlayerWorld.Player,
       PlayerWorld.heap w' !! player = Some p'
       /\ PlayerWorld.Pokemons p' = PlayerWorld.Pokemons p
       /\ PlayerWorld.ID p' = PlayerWorld.ID p.
Proof.
  intros Hp H.
  destruct (handlePlayerMovement_inv _ _ _ _ _ Hp H)
    as [-> | (x & y & _ & ->)].
  - split_and!; eauto.
  - cbn [PlayerWorld.worldSize PlayerWorld.heap]. split_and!; [reflexivity | |].
    + intros q Hq. now rewrite lookup_insert_ne by congruence.
    + eexists. split; [apply lookup_insert_eq|]. split; reflexivity.
Qed.

(** X24.  After an unblocked move the player is on the destination cell,
    in place of whoever stood there (a player who owns Pokémon does not
    block the move and is overwritten), the cell the player left, when it
    is another cell, is empty, and all other cells are as they were.  The
    call returns if the player owns no Pokémon; if the player owns at
    least one, the call never returns: it blocks in that state, holding
    the mutex of the player. *)
Theorem move_occupies_destination (w : PlayerWorld.World) (player : nat)
    (p : PlayerWorld.Player) (direction : string) :
  world_ok w ->
  PlayerWorld.heap w !! player = Some p ->
  PlayerWorld.inWorld w (PlayerWorld.X p) (PlayerWorld.Y p) = true ->
  2 * PlayerWorld.worldSize w <= max_int ->
  direction ∈ directions ->
  let dest := wrapStep (PlayerWorld.worldSize w) direction
                (PlayerWorld.X p, PlayerWorld.Y p) in
  blocked w dest = false ->
  exists w' : PlayerWorld.World,
    PlayerWorld.handlePlayerMovement player direction w
    = (if bool_decide (size (PlayerWorld.Pokemons p) = 0%nat)
       then Returns w' else Blocks w')
    /\ holdsMutex (PlayerWorld.handlePlayerMovement player direction w)
       = negb (bool_decide (size (PlayerWorld.Pokemons p) = 0%nat))
    /\ PlayerWorld.world w' !! dest = Some player
    /\ (dest <> (PlayerWorld.X p, PlayerWorld.Y p) ->
        PlayerWorld.world w' !! (PlayerWorld.X p, PlayerWorld.Y p) = None)
    /\ (forall cell : Z * Z,
          cell <> dest -> cell <> (PlayerWorld.X p, PlayerWorld.Y p) ->
          PlayerWorld.world w' !! cell = PlayerWorld.world w !! cell).
Proof.
  intros Hok Hp Hin Hs Hd dest Hb.
  destruct dest as [x y] eqn:Edest. subst dest.
  rewrite (handlePlayerMovement_unblocked _ _ _ _ _ _ Hok Hp Hin Hs Hd Edest Hb).
  eexists. split; [reflexivity|]. cbn [PlayerWorld.world]. split_and!.
  - now destruct (bool_decide _).
  - apply lookup_insert_eq.
  - intros Hne. rewrite lookup_insert_ne by exact Hne. apply lookup_delete_eq.
  - intros cell Hc1 Hc2. rewrite lookup_insert_ne by congruence.
    now rewrite lookup_delete_ne by congruence.
Qed.

(** X25.  Below the bound of 200, [handleEncounter] copies every entry of
    the encountered player into the collection of the player (an entry
    with the same key is replaced), keeps the other entries, leaves the
    encountered player as it was, and clears only the cell of the player. *)
Theorem handleEncounter_copies (player pokemon : nat) (w : PlayerWorld.World)
    (p q : PlayerWorld.Player) :
  PlayerWorld.heap w !! player = Some p ->
  PlayerWorld.heap w !! pokemon = Some q ->
  (size (PlayerWorld.Pokemons p) < 200)%nat ->
  PlayerWorld.inWorld w (PlayerWorld.X p) (PlayerWorld.Y p) = true ->
  exists (w' : PlayerWorld.World) (p' : PlayerWorld.Player),
    PlayerWorld.handleEncounter player pokemon w = Some w'
    /\ PlayerWorld.heap w' !! player = Some p'
    /\ (forall (id : Z) (x : Pokemon),
          PlayerWorld.Pokemons q !! id = Some x ->
          PlayerWorld.Pokemons p' !! id = Some x)
    /\ (forall id : Z,
          PlayerWorld.Pokemons q !! id = None ->
          PlayerWorld.Pokemons p' !! id = PlayerWorld.Pokemons p !! id)
    /\ (pokemon <> player -> PlayerWorld.heap w' !! pokemon = Some q)
    /\ PlayerWorld.world w' !! (PlayerWorld.X p, PlayerWorld.Y p) = None
    /\ (forall cell : Z * Z, cell <> (PlayerWorld.X p, PlayerWorld.Y p) ->
          PlayerWorld.world w' !! cell = PlayerWorld.world w !! cell).
Proof.
  intros Hp Hq Hsz Hin. unfold PlayerWorld.handleEncounter.
  rewrite Hp, Hq. cbn [mbind option_bind].
  destruct (Z.ltb_spec (Z.of_nat (size (PlayerWorld.Pokemons p))) 200); [|lia].
  rewrite (cellAt_inWorld _ _ _ Hin). cbn [mbind option_bind].
  eexists _, _. split; [reflexivity|].
  cbn [PlayerWorld.heap PlayerWorld.world]. split; [apply lookup_insert_eq|].
  cbn [PlayerWorld.Pokemons PlayerWorld.set_Pokemons]. split_and!.
  - intros id x Hx. now apply lookup_union_Some_l.
  - intros id Hx. now apply lookup_union_r.
  - intros Hne. now rewrite lookup_insert_ne by congruence.
  - apply lookup_delete_eq.
  - intros cell Hne. now apply lookup_delete_ne.
Qed.

(** X26.  [addPlayer] returns a fresh pointer to a player with the next
    id, the given position and no Pokémon, appends it to [players] and
    puts it on the cell, over whoever was there; the cell thereby blocks
    the moves of other players.  Nothing else changes. *)
Theorem addPlayer_blocks_cell (x y : Z) (s s' : Server) (player : nat) :
  addPlayer x y s = Some (player, s') ->
  PlayerWorld.heap (sworld s) !! player = None
  /\ PlayerWorld.heap (sworld s') !! player
     = Some (PlayerWorld.mkPlayer (int_add (playerID s) 1) x y ∅)
  /\ playerID s' = int_add (playerID s) 1
  /\ playerList s' = playerList s ++ [player]
  /\ PlayerWorld.world (sworld s') !! (x, y) = Some player
  /\ blocked (sworld s') (x, y) = true
  /\ (forall q : nat, q <> player ->
        PlayerWorld.heap (sworld s') !! q = PlayerWorld.heap (sworld s) !! q)
  /\ (forall cell : Z * Z, cell <> (x, y) ->
        PlayerWorld.world (sworld s') !! cell
        = PlayerWorld.world (sworld s) !! cell).
Proof.
  unfold addPlayer. destruct (PlayerWorld.cellAt (sworld s) x y); [|discriminate].
  cbn [mbind option_bind]. intros [= <- <-].
  cbn [sworld playerID playerList PlayerWorld.heap PlayerWorld.world].
  assert (Hfresh : PlayerWorld.heap (sworld s)
                     !! fresh (dom (PlayerWorld.heap (sworld s))) = None).
  { apply not_elem_of_dom. apply is_fresh. }
  split_and!; try reflexivity.
  - exact Hfresh.
  - apply lookup_insert_eq.
  - apply lookup_insert_eq.
  - unfold blocked. cbn [PlayerWorld.heap PlayerWorld.world].
    rewrite !lookup_insert_eq. reflexivity.
  - intros q Hne. now rewrite lookup_insert_ne by congruence.
  - intros cell Hne. now rewrite lookup_insert_ne by congruence.
Qed.

(** ** Instances of the further properties *)

Lemma special_damage_two_values_witness :
  calculateSpecialDamage examplePokedex (Some 1%nat) (Some 0%nat)
    = Some (Z.max 0 (SpecialAttack charmander - SpecialDefense bulbasaur))
  \/ calculateSpecialDamage examplePokedex (Some 1%nat) (Some 0%nat)
    = Some (Z.max 0 (2 * SpecialAttack charmander - SpecialDefense bulbasaur)).
Proof.
  apply (special_damage_two_values examplePokedex 1 0 charmander bulbasaur);
    [reflexivity | reflexivity | unfold stat_ok; simpl; lia
    | unfold stat_ok; simpl; lia].
Defined.

Lemma special_damage_untyped_witness :
  calculateSpecialDamage [untyped; squirtle] (Some 0%nat) (Some 1%nat)
  = Some (Z.max 0 (SpecialAttack untyped - SpecialDefense squirtle)).
Proof.
  apply (special_damage_untyped [untyped; squirtle] 0 1 untyped squirtle);
    [reflexivity | reflexivity | unfold stat_ok; simpl; lia
    | unfold stat_ok; simpl; lia | left; reflexivity].
Defined.

Lemma chooseTeam_picks_valid_witness :
  exists new : list nat,
    team (mkClient [3; 1; 2]%nat false 0 0 false 0) = team newClient ++ new
    /\ length new = 3%nat
    /\ Forall (fun p => is_Some (examplePokedex !! p)) new
    /\ isActive (mkClient [3; 1; 2]%nat false 0 0 false 0) = isActive newClient
    /\ X (mkClient [3; 1; 2]%nat false 0 0 false 0) = X newClient
    /\ Y (mkClient [3; 1; 2]%nat false 0 0 false 0) = Y newClient.
Proof.
  apply (chooseTeam_picks_valid examplePokedex 3
           [Some 4; None; Some 9; Some 2; Some 0; Some 3]).
  vm_compute. reflexivity.
Defined.

Lemma chooseTeam_empty_pokedex_witness :
  chooseTeam [] 3 [Some 1; Some 2; Some 3] newClient = None.
Proof. apply (chooseTeam_empty_pokedex 3). lia. Defined.

Lemma turn_passes_after_hit_witness :
  battleTurn exampleBattleAfterHit 1 (Some 2) = Some Waiting
  /\ exists (oconn : nat) (opponent' : Client),
       oconn <> 1%nat /\ clients exampleBattleAfterHit !! oconn = Some opponent'
       /\ isActive opponent' = true.
Proof.
  apply (turn_passes_after_hit exampleBattle 1 (Some 1) (Some 2)
           exampleBattleAfterHit 0 61).
  vm_compute. reflexivity.
Defined.

Lemma hit_frame_witness :
  length (b_pokedex exampleBattleAfterHit) = length (b_pokedex exampleBattle)
  /\ (forall i : nat, i <> 0%nat ->
        b_pokedex exampleBattleAfterHit !! i = b_pokedex exampleBattle !! i)
  /\ team <$> clients exampleBattleAfterHit !! 1%nat
     = team <$> clients exampleBattle !! 1%nat.
Proof.
  apply (hit_frame exampleBattle 1 (Some 1) exampleBattleAfterHit 0 61 false).
  vm_compute. reflexivity.
Defined.

Lemma reachable_one_turn_owner_witness : one_turn_owner exampleBattle.
Proof.
  apply reachable_one_turn_owner.
  apply (reach_start examplePokedex [Some 4; Some 2; Some 3]
           [Some 1; Some 3; Some 2] 0).
  vm_compute. reflexivity.
Defined.

Lemma spawnPokemon_frame_witness :
  TotalPokemon spawnedOne = TotalPokemon emptyWorld
  /\ players spawnedOne = players emptyWorld
  /\ (forall (cell : Z * Z) (p : nat),
        grid emptyWorld !! cell = Some p -> grid spawnedOne !! cell = Some p)
  /\ (liveCreatures emptyWorld <= liveCreatures spawnedOne
      <= liveCreatures emptyWorld + Z.to_nat 1)%nat.
Proof.
  apply (spawnPokemon_frame rowDraw 1 emptyWorld spawnedOne).
  vm_compute. reflexivity.
Defined.

Lemma spawned_creatures_witness :
  inGrid (0, 0).1 (0, 0).2 = true
  /\ (exists e : Pokemon,
        pokedex spawnedOne !! 0%nat = Some e /\ 1 <= Level e <= 100)
  /\ (exists id : nat,
        (length (timers emptyWorld) <= id)%nat
        /\ timers spawnedOne !! id = Some (mkTimer (0, 0).1 (0, 0).2 0 true)).
Proof.
  apply (spawned_creatures rowDraw 1 emptyWorld spawnedOne (0, 0) 0).
  - vm_compute. reflexivity.
  - reflexivity.
  - vm_compute. reflexivity.
Defined.

Lemma spawn_empty_pokedex_panics_witness :
  spawnPokemon rowDraw 50 barrenWorld = None.
Proof.
  apply (spawn_empty_pokedex_panics rowDraw 50 barrenWorld).
  - reflexivity.
  - lia.
  - simpl. lia.
  - reflexivity.
Defined.

Lemma spawn_then_despawn_witness :
  let pw'' := timerElapses (length (timers emptyWorld)) spawnedOne in
  liveCreatures spawnedOne = S (liveCreatures emptyWorld)
  /\ grid pw'' = grid emptyWorld
  /\ TotalPokemon pw'' = int_sub (TotalPokemon emptyWorld) 1.
Proof.
  apply (spawn_then_despawn rowDraw emptyWorld spawnedOne).
  - simpl. lia.
  - reflexivity.
  - vm_compute. reflexivity.
Defined.

Lemma handlePlayer_pass_blocks_witness :
  exists (pw' : Pokeworld) (c' : Client),
    handlePlayer 7 "down" sessionEncounter = Blocks pw'
    /\ holdsMutex (handlePlayer 7 "down" sessionEncounter) = true
    /\ players pw' = <[7%nat := c']> (players sessionEncounter)
    /\ inGrid (X c') (Y c') = true
    /\ Z.abs (X c' - X (mkClient [] false 1 0 false 0))
       + Z.abs (Y c' - Y (mkClient [] false 1 0 false 0)) <= 1
    /\ team c' = team (mkClient [] false 1 0 false 0)
    /\ AutoMode c' = AutoMode (mkClient [] false 1 0 false 0)
    /\ AutoUntil c' = AutoUntil (mkClient [] false 1 0 false 0)
    /\ grid pw' = grid sessionEncounter
    /\ pokedex pw' = pokedex sessionEncounter
    /\ TotalPokemon pw' = TotalPokemon sessionEncounter
    /\ despawnTimers pw' = despawnTimers sessionEncounter
    /\ timers pw' = timers sessionEncounter
    /\ (forall (rand : nat -> SpawnDraw) (n : Z),
          spawnCycle (holdsMutex (handlePlayer 7 "down" sessionEncounter))
            rand n pw'
          = Blocks pw')
    /\ (forall id : nat,
          despawnFires (holdsMutex (handlePlayer 7 "down" sessionEncounter))
            id pw'
          = Blocks pw').
Proof.
  apply (handlePlayer_pass_blocks 7 "down" sessionEncounter
           (mkClient [] false 1 0 false 0)).
  - vm_compute. reflexivity.
  - reflexivity.
Defined.

Lemma movePlayer_stays_in_grid_witness :
  inGrid (X (movePlayer "down" (mkClient [] false 0 999 false 0)))
    (Y (movePlayer "down" (mkClient [] false 0 999 false 0))) = true
  /\ Z.abs (X (movePlayer "down" (mkClient [] false 0 999 false 0))
            - X (mkClient [] false 0 999 false 0))
     + Z.abs (Y (movePlayer "down" (mkClient [] false 0 999 false 0))
              - Y (mkClient [] false 0 999 false 0)) <= 1.
Proof.
  apply (movePlayer_stays_in_grid "down" (mkClient [] false 0 999 false 0)).
  reflexivity.
Defined.

Lemma TotalPokemon_never_increases_witness :
  TotalPokemon spawnedOne - 1 <= TotalPokemon (timerElapses 0 spawnedOne)
  <= TotalPokemon spawnedOne.
Proof.
  apply (TotalPokemon_never_increases spawnedOne (timerElapses 0 spawnedOne)).
  - apply wstep_timer.
  - vm_compute. split; [reflexivity | discriminate].
Defined.

Lemma move_in_empty_world_panics_witness :
  PlayerWorld.handlePlayerMovement 1 "up" unallocated = Panics.
Proof.
  apply (move_in_empty_world_panics unallocated 1
           (PlayerWorld.mkPlayer 1 0 0 ∅) "up").
  - reflexivity.
  - reflexivity.
  - vm_compute. left.
Defined.

Lemma move_never_captures_witness :
  PlayerWorld.worldSize onePlayerMoved = PlayerWorld.worldSize onePlayer
  /\ (forall q : nat, q <> 1%nat ->
        PlayerWorld.heap onePlayerMoved !! q = PlayerWorld.heap onePlayer !! q)
  /\ exists p' : PlayerWorld.Player,
       PlayerWorld.heap onePlayerMoved !! 1%nat = Some p'
       /\ PlayerWorld.Pokemons p'
          = PlayerWorld.Pokemons (PlayerWorld.mkPlayer 1 0 0 ∅)
       /\ PlayerWorld.ID p' = PlayerWorld.ID (PlayerWorld.mkPlayer 1 0 0 ∅).
Proof.
  apply (move_never_captures 1 "up" onePlayer onePlayerMoved
           (PlayerWorld.mkPlayer 1 0 0 ∅)).
  - reflexivity.
  - left. vm_compute. reflexivity.
Defined.

Lemma trainerWorld_ok : world_ok trainerWorld.
Proof.
  intros cell q Hc. unfold trainerWorld in *. cbn in *.
  apply lookup_insert_Some in Hc as [[_ <-] | [_ Hc]].
  - now rewrite lookup_insert_eq.
  - now rewrite lookup_empty in Hc.
Qed.

Lemma move_occupies_destination_witness :
  let dest := wrapStep (PlayerWorld.worldSize trainerWorld) "up"
                (PlayerWorld.X trainer, PlayerWorld.Y trainer) in
  exists w' : PlayerWorld.World,
    PlayerWorld.handlePlayerMovement 1 "up" trainerWorld
    = (if bool_decide (size (PlayerWorld.Pokemons trainer) = 0%nat)
       then Returns w' else Blocks w')
    /\ holdsMutex (PlayerWorld.handlePlayerMovement 1 "up" trainerWorld)
       = negb (bool_decide (size (PlayerWorld.Pokemons trainer) = 0%nat))
    /\ PlayerWorld.world w' !! dest = Some 1%nat
    /\ (dest <> (PlayerWorld.X trainer, PlayerWorld.Y trainer) ->
        PlayerWorld.world w' !! (PlayerWorld.X trainer, PlayerWorld.Y trainer)
        = None)
    /\ (forall cell : Z * Z,
          cell <> dest ->
          cell <> (PlayerWorld.X trainer, PlayerWorld.Y trainer) ->
          PlayerWorld.world w' !! cell = PlayerWorld.world trainerWorld !! cell).
Proof.
  apply (move_occupies_destination trainerWorld 1 trainer "up").
  - exact trainerWorld_ok.
  - reflexivity.
  - reflexivity.
  - vm_compute. discriminate.
  - vm_compute. left.
  - vm_compute. reflexivity.
Defined.

(** The trainer's move, evaluated: the call blocks with the trainer on
    (0, 2), Charmander still in the collection. *)
Lemma trainer_move_blocks :
  PlayerWorld.handlePlayerMovement 1 "up" trainerWorld = Blocks trainerMoved
  /\ PlayerWorld.world trainerMoved !! (0, 2) = Some 1%nat
  /\ PlayerWorld.world trainerMoved !! (0, 0) = None
  /\ PlayerWorld.heap trainerMoved !! 1%nat
     = Some (PlayerWorld.mkPlayer 1 0 2 (<[4 := charmander]> ∅)).
Proof. vm_compute. auto. Qed.

Lemma handleEncounter_copies_witness :
  exists (w' : PlayerWorld.World) (p' : PlayerWorld.Player),
    PlayerWorld.handleEncounter 1 2 encounterWorld = Some w'
    /\ PlayerWorld.heap w' !! 1%nat = Some p'
    /\ (forall (id : Z) (x : Pokemon),
          PlayerWorld.Pokemons wild !! id = Some x ->
          PlayerWorld.Pokemons p' !! id = Some x)
    /\ (forall id : Z,
          PlayerWorld.Pokemons wild !! id = None ->
          PlayerWorld.Pokemons p' !! id
          = PlayerWorld.Pokemons (PlayerWorld.mkPlayer 1 0 0 ∅) !! id)
    /\ (2%nat <> 1%nat -> PlayerWorld.heap w' !! 2%nat = Some wild)
    /\ PlayerWorld.world w'
         !! (PlayerWorld.X (PlayerWorld.mkPlayer 1 0 0 ∅),
             PlayerWorld.Y (PlayerWorld.mkPlayer 1 0 0 ∅)) = None
    /\ (forall cell : Z * Z,
          cell <> (PlayerWorld.X (PlayerWorld.mkPlayer 1 0 0 ∅),
                   PlayerWorld.Y (PlayerWorld.mkPlayer 1 0 0 ∅)) ->
          PlayerWorld.world w' !! cell = PlayerWorld.world encounterWorld !! cell).
Proof.
  apply (handleEncounter_copies 1 2 encounterWorld
           (PlayerWorld.mkPlayer 1 0 0 ∅) wild).
  - reflexivity.
  - reflexivity.
  - vm_compute. lia.
  - reflexivity.
Defined.

Lemma addPlayer_blocks_cell_witness :
  PlayerWorld.heap (sworld exampleServer) !! addResult.1 = None
  /\ PlayerWorld.heap (sworld addResult.2) !! addResult.1
     = Some (PlayerWorld.mkPlayer (int_add (playerID exampleServer) 1) 0 2 ∅)
  /\ playerID addResult.2 = int_add (playerID exampleServer) 1
  /\ playerList addResult.2 = playerList exampleServer ++ [addResult.1]
  /\ PlayerWorld.world (sworld addResult.2) !! (0, 2) = Some addResult.1
  /\ blocked (sworld addResult.2) (0, 2) = true
  /\ (forall q : nat, q <> addResult.1 ->
        PlayerWorld.heap (sworld addResult.2) !! q
        = PlayerWorld.heap (sworld exampleServer) !! q)
  /\ (forall cell : Z * Z, cell <> (0, 2) ->
        PlayerWorld.world (sworld addResult.2) !! cell
        = PlayerWorld.world (sworld exampleServer) !! cell).
Proof.
  apply (addPlayer_blocks_cell 0 2 exampleServer addResult.2 addResult.1).
  vm_compute. reflexivity.
Defined.
